(** * speech-to-text: windowing, SRT formatting and transcript assembly

    A shallow embedding of [stt_google.py]:
    - [chunk_audio]     (the windowing loop),
    - [ms_to_srt_time]  and [write_srt] (subtitle rendering),
    - [transcribe_wav_google] (the per-window recognition loop),
    together with the properties the specification states about them.

    Conventions.  Python [int] is [Z].  A Python [str] is a list of Unicode
    code points ([N]); [py "..."] injects an ASCII literal.  The audio
    segment only enters the windowing code through [len(seg)], its duration
    in milliseconds, so [chunk_audio] takes that length.  The remote
    recogniser is an oracle giving, for each window, what the call
    [recognize_google] did: returned a text, or raised.  [print] (the one
    of [rich]) and [write_text] are parameters too: each call returns or
    raises. *)

From Stdlib Require Import String Ascii ZArith List Sorted Bool Lia.
Import ListNotations.
Local Open Scope Z_scope.

(* ================================================================== *)
(** ** Python strings and integers *)

Module Py.

(** A [str] is a sequence of code points. *)
Definition char : Type := N.
Definition str : Type := list char.

(** An ASCII literal as a [str]. *)
Definition py (s : string) : str :=
  map N_of_ascii (list_ascii_of_string s).

(** The line feed, written ["\n"] in the source. *)
Definition LF : str := [10%N].

(** [c.isspace()]: the code points CPython treats as whitespace, which are
    the ones [str.strip()] removes. *)
Definition isspace (c : char) : bool :=
  (((9 <=? c) && (c <=? 13))          (* \t \n \v \f \r *)
   || ((28 <=? c) && (c <=? 32))      (* FS GS RS US and the space *)
   || (c =? 133) || (c =? 160)        (* NEL, no-break space *)
   || (c =? 5760)                     (* U+1680 *)
   || ((8192 <=? c) && (c <=? 8202))  (* U+2000 .. U+200A *)
   || (c =? 8232) || (c =? 8233)      (* U+2028, U+2029 *)
   || (c =? 8239) || (c =? 8287)      (* U+202F, U+205F *)
   || (c =? 12288))%N.                (* U+3000 *)

Fixpoint lstrip (s : str) : str :=
  match s with
  | [] => []
  | c :: s' => if isspace c then lstrip s' else s
  end.

Definition rstrip (s : str) : str := rev (lstrip (rev s)).

(** [s.strip()] *)
Definition strip (s : str) : str := rstrip (lstrip s).

(** Truth value of a [str] in a condition: non-empty. *)
Definition truthy (s : str) : bool :=
  match s with [] => false | _ :: _ => true end.

(** [sep.join(l)] *)
Fixpoint join (sep : str) (l : list str) : str :=
  match l with
  | [] => []
  | [x] => x
  | x :: l' => x ++ sep ++ join sep l'
  end.

(** [divmod(a, b)]: floor division and its remainder, as [Z.div] and
    [Z.modulo] are. *)
Definition divmod (a b : Z) : Z * Z := (a / b, a mod b).

(** The decimal digit [d] (0..9) as a character. *)
Definition digit (d : Z) : char := Z.to_N (48 + d).

Fixpoint digits_fuel (fuel : nat) (n : Z) : str :=
  match fuel with
  | O => []
  | S fuel' =>
      if n <? 10 then [digit n]
      else digits_fuel fuel' (n / 10) ++ [digit (n mod 10)]
  end.

(** The decimal digits of [n >= 0], most significant first; a number has no
    more decimal digits than binary ones. *)
Definition digits (n : Z) : str :=
  digits_fuel (S (Z.to_nat (Z.log2 n))) n.

(** [str(n)] for an [int]. *)
Definition str_int (n : Z) : str :=
  if n <? 0 then 45%N :: digits (- n) else digits n.

(** Zeros in front, up to [width] characters. *)
Definition zfill (width : nat) (s : str) : str :=
  repeat 48%N (width - length s) ++ s.

(** [f"{n:0<width>d}"]: decimal, zero-padded to [width] characters, the
    sign (if any) first and counted in the width. *)
Definition format_0d (width : nat) (n : Z) : str :=
  if n <? 0 then 45%N :: zfill (width - 1) (digits (- n))
  else zfill width (digits n).

(** What a sequence of characters reads as when taken for a decimal
    numeral, and whether it is one. *)
Definition decimal_value (s : str) : Z :=
  fold_left (fun v c => 10 * v + (Z.of_N c - 48)) s 0.

Definition isdigit (c : char) : bool := ((48 <=? c) && (c <=? 57))%N.

(** [s] is a numeral of exactly [width] digits that reads [v]. *)
Definition numeral (width : nat) (v : Z) (s : str) : Prop :=
  length s = width /\ forallb isdigit s = true /\ decimal_value s = v.

End Py.

(* ================================================================== *)
(** ** The program *)

Module Stt.
Import Py.

(** *** [chunk_audio] *)

(** A window is the tuple [(start_ms, end_ms)]. *)
Definition window : Type := Z * Z.

(** One pass through the body of [while i < len(seg)].  The body either
    leaves the loop (the guard is false, or [break]) with the list to
    return, or goes round again with the new [(chunks, i)]. *)
Inductive ctl : Type :=
| Continue (chunks : list window) (i : Z)
| Break (chunks : list window).

Definition chunk_body (len chunk_ms overlap_ms : Z)
           (chunks : list window) (i : Z) : ctl :=
  if i <? len then
    let start := i in
    let end_ := Z.min (i + chunk_ms) len in
    let chunks := chunks ++ [(start, end_)] in
    if end_ =? len then Break chunks
    else Continue chunks (end_ - overlap_ms)
  else Break chunks.

(** The loop itself; [None] means the fuel ran out before the loop left. *)
Fixpoint chunk_loop (fuel : nat) (len chunk_ms overlap_ms : Z)
         (chunks : list window) (i : Z) : option (list window) :=
  match fuel with
  | O => None
  | S fuel' =>
      match chunk_body len chunk_ms overlap_ms chunks i with
      | Break r => Some r
      | Continue chunks' i' => chunk_loop fuel' len chunk_ms overlap_ms chunks' i'
      end
  end.

(** [chunk_audio(seg, chunk_ms, overlap_ms)] with [len = len(seg)].
    [S (Z.to_nat len)] passes are as many as the loop can ever need
    ([chunk_audio_None_diverges] below): [None] is a loop that never
    leaves. *)
Definition chunk_audio (len chunk_ms overlap_ms : Z) : option (list window) :=
  chunk_loop (S (Z.to_nat len)) len chunk_ms overlap_ms [] 0.

(** The defaults of the signatures. *)
Definition default_chunk_ms : Z := 30000.
Definition default_overlap_ms : Z := 1000.

(** *** [write_srt] *)

(** A segment is the tuple [(start_ms, end_ms, text)]. *)
Definition segment : Type := Z * Z * str.

Definition ms_to_srt_time (ms : Z) : str :=
  let '(s, ms) := divmod ms 1000 in
  let '(h, s) := divmod s 3600 in
  let '(m, s) := divmod s 60 in
  format_0d 2 h ++ py ":" ++ format_0d 2 m ++ py ":" ++ format_0d 2 s
    ++ py "," ++ format_0d 3 ms.

(** The [for idx, (start, end, text) in enumerate(segments, start=1)] loop,
    with [idx] the next number and [lines] the list built so far. *)
Fixpoint write_srt_loop (idx : Z) (segments : list segment)
         (lines : list str) : list str :=
  match segments with
  | [] => lines
  | (start, end_, text) :: segments' =>
      let lines := lines ++ [str_int idx] in
      let lines := lines ++ [ms_to_srt_time start ++ py " --> " ++ ms_to_srt_time end_] in
      let lines := lines ++ [strip text] in
      let lines := lines ++ [[]] in
      write_srt_loop (idx + 1) segments' lines
  end.

(** [lines] when the loop is over. *)
Definition srt_lines (segments : list segment) : list str :=
  write_srt_loop 1 segments [].

(** [write_srt(segments, out_path)]: the text written to [out_path]. *)
Definition write_srt (segments : list segment) : str :=
  join LF (srt_lines segments).

(** *** [transcribe_wav_google] *)

(** What the work of one pass on a window does, from the export of the
    chunk to the call [recognizer.recognize_google(audio, language=language)]:
    it returns a text or raises.  [UnknownValueError] and [RequestError e]
    are the two exceptions the source catches, [e] being the message
    [f"{e}"] gives; anything else that is raised is [OtherError]. *)
Inductive outcome : Type :=
| Returned (text : str)
| UnknownValueError
| RequestError (e : str)
| OtherError (e : str).

(** [print] is the one of [rich] ([from rich import print]): it reads its
    argument as console markup before it writes, and raises when the
    markup is not well formed.  The library is not among the sources, so
    what a call does with an argument is a parameter: [None] when the call
    returns, [Some e] when it raises [e]. *)
Definition printer : Type := str -> option str.

(** [Path(path).write_text(content, encoding="utf-8")], likewise: [None]
    when the call returns, [Some e] when it raises [e] (a text that cannot
    be encoded, a file that cannot be written). *)
Definition writer : Type := str -> str -> option str.

(** The argument of the [print] in the [RequestError] handler. *)
Definition request_error_msg (e : str) : str :=
  py "[red]API request error:[/red] " ++ e.

(** The locals of the loop that outlive a pass, and the arguments of the
    calls of [print] made so far, all of which returned. *)
Record locals : Type := mkLocals {
  srt_segments : list segment;
  texts : list str;
  printed : list str
}.

(** The [try ... except] of one pass: the text the pass goes on with and
    the arguments of the calls of [print] it made, or the exception that
    leaves the function: one the handlers do not catch, or one [print]
    raised inside the [RequestError] handler. *)
Definition recognized_text (rich_print : printer) (r : outcome)
  : (str * list str) + str :=
  match r with
  | Returned text => inl (text, [])
  | UnknownValueError => inl ([], [])
  | RequestError e =>
      match rich_print (request_error_msg e) with
      | Some exn => inr exn
      | None => inl ([], [request_error_msg e])
      end
  | OtherError e => inr e
  end.

(** [for start_ms, end_ms in iterator: ...]; [recognize w] is the outcome of
    the pass for the audio of window [w]. *)
Fixpoint transcribe_loop (rich_print : printer) (recognize : window -> outcome)
         (windows : list window) (st : locals) : locals + str :=
  match windows with
  | [] => inl st
  | (start_ms, end_ms) :: windows' =>
      match recognized_text rich_print (recognize (start_ms, end_ms)) with
      | inr e => inr e
      | inl (text, out) =>
          let st := mkLocals (srt_segments st) (texts st) (printed st ++ out) in
          let st :=
            if truthy (strip text) then
              mkLocals (srt_segments st ++ [(start_ms, end_ms, text)])
                       (texts st ++ [text]) (printed st)
            else st in
          transcribe_loop rich_print recognize windows' st
      end
  end.

(** What a call of [transcribe_wav_google] comes to. *)
Inductive run : Type :=
| Returns (full_text : str) (srt_segments : list segment) (printed : list str)
| Raises (e : str)
| Diverges.

(** [transcribe_wav_google(wav_path, language, chunk_ms, overlap_ms)] for a
    recording that loads and is [len] milliseconds long.  The progress bar
    only wraps the iteration and is left out. *)
Definition transcribe_wav_google (rich_print : printer) (len : Z)
           (recognize : window -> outcome) (chunk_ms overlap_ms : Z) : run :=
  match chunk_audio len chunk_ms overlap_ms with
  | None => Diverges
  | Some windows =>
      match transcribe_loop rich_print recognize windows (mkLocals [] [] []) with
      | inr e => Raises e
      | inl st => Returns (join (py " ") (texts st)) (srt_segments st) (printed st)
      end
  end.

(** *** [transcribe_file] *)

(** The two files [transcribe_file] writes, [transcript.txt] and
    [subtitles.srt]. *)
Record files : Type := mkFiles {
  transcript_txt : str;
  subtitles_srt : str
}.

(** The arguments of the two calls of [print] in [transcribe_file]. *)
Definition transcribing_msg (wav_path : str) : str :=
  py "[bold]Transcribing file:[/bold] " ++ wav_path.

Definition saved_msg : str :=
  py "[green]Saved[/green] transcript.txt and subtitles.srt".

(** What a call of [transcribe_file] comes to: it returns, with both files
    written and the arguments of the calls of [print]; or it raises, with
    the files (path and content) whose writing had returned by then; or it
    never returns. *)
Inductive file_run : Type :=
| Wrote (fs : files) (printed : list str)
| FileRaises (e : str) (written : list (str * str))
| FileDiverges.

(** [transcribe_file(wav_path, language)] for a recording that loads and is
    [len] milliseconds long; [wav_path] is the path as [str(Path(wav_path))]
    gives it.  The chunk length and the overlap are the defaults of
    [transcribe_wav_google]; the files are written after it has returned,
    the transcript first. *)
Definition transcribe_file (rich_print : printer) (write_text : writer)
           (wav_path : str) (len : Z) (recognize : window -> outcome)
  : file_run :=
  match rich_print (transcribing_msg wav_path) with
  | Some e => FileRaises e []
  | None =>
      match transcribe_wav_google rich_print len recognize
                                  default_chunk_ms default_overlap_ms with
      | Diverges => FileDiverges
      | Raises e => FileRaises e []
      | Returns text segments out =>
          match write_text (py "transcript.txt") text with
          | Some e => FileRaises e []
          | None =>
              match write_text (py "subtitles.srt") (write_srt segments) with
              | Some e => FileRaises e [(py "transcript.txt", text)]
              | None =>
                  match rich_print saved_msg with
                  | Some e =>
                      FileRaises e [(py "transcript.txt", text);
                                    (py "subtitles.srt", write_srt segments)]
                  | None =>
                      Wrote (mkFiles text (write_srt segments))
                            ([transcribing_msg wav_path] ++ out ++ [saved_msg])
                  end
              end
          end
      end
  end.

(** *** Statement helpers *)

(** The milliseconds of audio a list of windows holds, overlaps counted
    as often as they are sent. *)
Definition total_ms (ws : list window) : Z :=
  fold_right (fun w acc => (snd w - fst w) + acc) 0 ws.

(** What [print] is given in the pass for an outcome. *)
Definition printed_for (r : outcome) : list str :=
  match r with
  | RequestError e => [request_error_msg e]
  | _ => []
  end.

(** The exception a pass leaves the function with, if any: what was raised
    and is not caught, or what [print] raised in the [RequestError]
    handler. *)
Definition leaves_with (rich_print : printer) (r : outcome) : option str :=
  match r with
  | OtherError e => Some e
  | RequestError e => rich_print (request_error_msg e)
  | _ => None
  end.

(** A pass after which the loop goes on. *)
Definition passes (rich_print : printer) (r : outcome) : bool :=
  match leaves_with rich_print r with
  | Some _ => false
  | None => true
  end.

(** A [print] that always returns, and one that raises [e] on the argument
    [bad] and on no other: two printers to run the functions with. *)
Definition quiet_print : printer := fun _ => None.

Definition print_rejecting (bad : str) (e : str) : printer :=
  fun s => if list_eq_dec N.eq_dec s bad then Some e else None.

(** A [write_text] that always returns. *)
Definition plain_write : writer := fun _ _ => None.

(** The four lines of the subtitle entry numbered [idx]. *)
Definition srt_entry (idx : Z) (seg : segment) : list str :=
  let '(start, end_, text) := seg in
  [str_int idx;
   ms_to_srt_time start ++ py " --> " ++ ms_to_srt_time end_;
   strip text;
   []].

Fixpoint srt_entries (idx : Z) (segments : list segment) : list str :=
  match segments with
  | [] => []
  | seg :: segments' => srt_entry idx seg ++ srt_entries (idx + 1) segments'
  end.

(** The text a pass goes on with when the call did not leave the function. *)
Definition window_text (r : outcome) : str :=
  match r with
  | Returned text => text
  | _ => []
  end.

(** The test [if text.strip():]. *)
Definition kept (text : str) : bool := truthy (strip text).

(** The windows that end up as segments, and their texts. *)
Definition kept_segments (recognize : window -> outcome)
           (windows : list window) : list segment :=
  map (fun w : window => (fst w, snd w, window_text (recognize w)))
      (filter (fun w => kept (window_text (recognize w))) windows).

Definition kept_texts (recognize : window -> outcome)
           (windows : list window) : list str :=
  filter kept (map (fun w => window_text (recognize w)) windows).

(** The shape of what the windowing loop emits from cursor [i] on. *)
Inductive chain (len c o : Z) : Z -> list window -> Prop :=
| chain_last i : i < len -> len <= i + c -> chain len c o i [(i, len)]
| chain_step i ws : i + c < len -> chain len c o (i + c - o) ws ->
                    chain len c o i ((i, i + c) :: ws).

End Stt.

Import Py Stt.

(* ================================================================== *)
(** ** Windowing: termination and shape *)

(** *** The loop, read as a producer of a list *)

(** The accumulator only ever grows at its end. *)
Lemma chunk_loop_acc fuel len c o : forall chunks i,
  chunk_loop fuel len c o chunks i =
  option_map (app chunks) (chunk_loop fuel len c o [] i).
Proof.
  induction fuel as [|fuel IH]; intros chunks i; simpl; [reflexivity|].
  unfold chunk_body.
  destruct (i <? len); simpl; [|now rewrite app_nil_r].
  destruct (Z.min (i + c) len =? len); simpl; [reflexivity|].
  rewrite (IH (chunks ++ _)), (IH [_]).
  destruct (chunk_loop fuel len c o [] _); simpl; [|reflexivity].
  now rewrite <- app_assoc.
Qed.

(** One unfolding, with the accumulator gone. *)
Lemma chunk_loop_S fuel len c o i :
  chunk_loop (S fuel) len c o [] i =
  if i <? len then
    if Z.min (i + c) len =? len then Some [(i, Z.min (i + c) len)]
    else option_map (cons (i, Z.min (i + c) len))
                    (chunk_loop fuel len c o [] (Z.min (i + c) len - o))
  else Some [].
Proof.
  simpl. unfold chunk_body.
  destruct (i <? len); [|reflexivity].
  destruct (Z.min (i + c) len =? len); [reflexivity|].
  simpl. now rewrite chunk_loop_acc.
Qed.

(** More fuel never changes a result. *)
Lemma chunk_loop_mono fuel len c o : forall chunks i ws fuel',
  chunk_loop fuel len c o chunks i = Some ws ->
  (fuel <= fuel')%nat ->
  chunk_loop fuel' len c o chunks i = Some ws.
Proof.
  induction fuel as [|fuel IH]; intros chunks i ws fuel' H Hle; [discriminate|].
  destruct fuel' as [|fuel']; [lia|].
  simpl in *. destruct (chunk_body len c o chunks i); [|assumption].
  apply IH; [assumption|lia].
Qed.

(** With [overlap_ms < chunk_ms] the cursor moves right by
    [chunk_ms - overlap_ms >= 1] on every pass that goes round again, so
    the loop leaves within [len - i] passes (plus the one that sees the
    guard fail). *)
Lemma chunk_loop_terminates len c o : o < c ->
  forall fuel chunks i, (Z.to_nat (len - i) < fuel)%nat ->
  exists ws, chunk_loop fuel len c o chunks i = Some ws.
Proof.
  intros Hoc. induction fuel as [|fuel IH]; intros chunks i Hfuel; [lia|].
  simpl. unfold chunk_body.
  destruct (Z.ltb_spec i len); [|eauto].
  destruct (Z.eqb_spec (Z.min (i + c) len) len); [eauto|].
  apply IH. lia.
Qed.

Lemma chunk_loop_chain len c o : 0 <= o < c ->
  forall fuel i, 0 <= i < len -> (Z.to_nat (len - i) <= fuel)%nat ->
  exists ws, chunk_loop fuel len c o [] i = Some ws /\ chain len c o i ws.
Proof.
  intros Hoc. induction fuel as [|fuel IH]; intros i Hi Hfuel; [lia|].
  rewrite chunk_loop_S.
  destruct (Z.ltb_spec i len); [|lia].
  destruct (Z.eqb_spec (Z.min (i + c) len) len) as [E|E].
  - exists [(i, Z.min (i + c) len)]. split; [reflexivity|].
    rewrite E. constructor; lia.
  - assert (Hm : Z.min (i + c) len = i + c) by lia. rewrite Hm.
    destruct (IH (i + c - o)) as (ws & Hws & Hch); [lia|lia|].
    rewrite Hws. exists ((i, i + c) :: ws). split; [reflexivity|].
    constructor; [lia|assumption].
Qed.

Lemma chunk_audio_chain len c o : 0 <= o < c -> 0 < len ->
  exists ws, chunk_audio len c o = Some ws /\ chain len c o 0 ws.
Proof.
  intros Hoc Hlen. apply chunk_loop_chain; [assumption|lia|lia].
Qed.

(** When the overlap is not smaller than the chunk and the input is longer
    than one chunk, the cursor never moves right and no pass leaves. *)
Lemma chunk_loop_stuck len c o : c <= o -> c < len -> 0 < len ->
  forall fuel chunks i, i <= 0 -> chunk_loop fuel len c o chunks i = None.
Proof.
  intros Hco Hlen Hpos. induction fuel as [|fuel IH]; intros chunks i Hi; [reflexivity|].
  simpl. unfold chunk_body.
  destruct (Z.ltb_spec i len); [|lia].
  destruct (Z.eqb_spec (Z.min (i + c) len) len); [lia|].
  apply IH. lia.
Qed.

(** The fuel of [chunk_audio] loses nothing: where it gives [None], no
    amount of fuel gives a result. *)
Lemma chunk_audio_None_diverges len c o :
  chunk_audio len c o = None ->
  forall fuel, chunk_loop fuel len c o [] 0 = None.
Proof.
  intros HN fuel.
  destruct (Z.lt_ge_cases o c) as [Hoc|Hoc].
  - destruct (chunk_loop_terminates len c o Hoc (S (Z.to_nat len)) [] 0) as [ws Hws];
      [lia|]. unfold chunk_audio in HN. congruence.
  - destruct (Z.lt_ge_cases c len) as [Hl|Hl], (Z.lt_ge_cases 0 len) as [Hp|Hp];
      [apply chunk_loop_stuck; lia | | | ];
      exfalso; revert HN; unfold chunk_audio; rewrite chunk_loop_S;
      (destruct (Z.ltb_spec 0 len); [|discriminate]);
      (destruct (Z.eqb_spec (Z.min (0 + c) len) len); [discriminate|lia]).
Qed.

(** *** Consequences of the shape *)

Lemma chain_nonempty len c o i ws : chain len c o i ws -> ws <> [].
Proof. destruct 1; discriminate. Qed.

Lemma chain_head len c o i ws :
  chain len c o i ws -> exists e, hd_error ws = Some (i, e).
Proof. destruct 1; simpl; eauto. Qed.

Lemma chain_last_end len c o i ws :
  chain len c o i ws -> exists s, last ws (0, 0) = (s, len).
Proof.
  induction 1 as [i Hi Hc | i ws Hi Hch [s IH]]; simpl; [eauto|].
  destruct ws; [now inversion Hch|eauto].
Qed.

(** Every window is non-empty and lies inside [[0, len]]. *)
Lemma chain_bounds len c o : o < c -> 0 < c ->
  forall i ws, chain len c o i ws -> 0 <= i ->
  Forall (fun w : window => 0 <= fst w < snd w /\ snd w <= len) ws.
Proof.
  intros Hoc Hc. induction 1 as [i Hi Hl | i ws Hi Hch IH]; intros H0.
  - repeat constructor; simpl; lia.
  - constructor; [simpl; lia|]. apply IH. lia.
Qed.

(** Consecutive windows: full length before, overlap after. *)
Lemma chain_consecutive len c o i ws : chain len c o i ws ->
  forall k w1 w2, nth_error ws k = Some w1 -> nth_error ws (S k) = Some w2 ->
  snd w1 - fst w1 = c /\ fst w2 = snd w1 - o.
Proof.
  induction 1 as [i Hi Hl | i ws Hi Hch IH]; intros k w1 w2 H1 H2.
  - destruct k as [|[|k]]; discriminate.
  - destruct k as [|k].
    + simpl in H1. injection H1 as <-. simpl in H2.
      destruct (chain_head _ _ _ _ _ Hch) as [e He].
      destruct ws as [|w ws]; [discriminate|].
      simpl in He, H2. injection He as ->. injection H2 as <-. simpl. lia.
    + simpl in H1. apply (IH k); assumption.
Qed.

(** Every instant from the cursor on lies in some window. *)
Lemma chain_covers len c o : 0 <= o ->
  forall i ws, chain len c o i ws ->
  forall t, i <= t < len -> Exists (fun w : window => fst w <= t < snd w) ws.
Proof.
  intros Ho. induction 1 as [i Hi Hl | i ws Hi Hch IH]; intros t Ht.
  - constructor. simpl. lia.
  - destruct (Z.lt_ge_cases t (i + c)).
    + constructor. simpl. lia.
    + apply Exists_cons_tl. apply IH. lia.
Qed.

(** A pass that goes round again moves the cursor by exactly
    [chunk_ms - overlap_ms]. *)
Lemma chunk_body_advance len c o chunks i chunks' i' :
  chunk_body len c o chunks i = Continue chunks' i' ->
  i < len /\ i + c < len /\ i' = i + (c - o) /\ chunks' = chunks ++ [(i, i + c)].
Proof.
  unfold chunk_body.
  destruct (Z.ltb_spec i len); [|discriminate].
  destruct (Z.eqb_spec (Z.min (i + c) len) len) as [E|E]; [discriminate|].
  intros [= <- <-].
  assert (Hm : Z.min (i + c) len = i + c) by lia.
  rewrite Hm. repeat split; lia.
Qed.

(** C7.  For every duration and every chunk length and overlap with
    [0 < overlap_ms < chunk_ms], the windowing loop terminates: each pass
    that does not leave the loop moves the cursor right by
    [chunk_ms - overlap_ms], which is at least 1, and [chunk_audio] returns
    a list; [S (Z.to_nat len)] passes or more all give that same list. *)
Theorem chunk_audio_total : forall len chunk_ms overlap_ms,
  0 < overlap_ms < chunk_ms ->
  (forall chunks i chunks' i',
      chunk_body len chunk_ms overlap_ms chunks i = Continue chunks' i' ->
      i' - i >= chunk_ms - overlap_ms /\ i < i') /\
  exists ws,
    chunk_audio len chunk_ms overlap_ms = Some ws /\
    forall fuel, (Z.to_nat len < fuel)%nat ->
                 chunk_loop fuel len chunk_ms overlap_ms [] 0 = Some ws.
Proof.
  intros len c o Hoc. split.
  - intros chunks i chunks' i' Hb.
    apply chunk_body_advance in Hb. lia.
  - destruct (chunk_loop_terminates len c o (proj2 Hoc) (S (Z.to_nat len)) [] 0)
      as [ws Hws]; [lia|].
    exists ws. split; [exact Hws|].
    intros fuel Hfuel. eapply chunk_loop_mono; [exact Hws|lia].
Qed.

Lemma chunk_audio_total_witness :
  exists ws, chunk_audio 90000 30000 1000 = Some ws /\ List.length ws = 4%nat.
Proof.
  destruct (chunk_audio_total 90000 30000 1000 ltac:(lia)) as [_ [ws [Hws _]]].
  exists ws. split; [exact Hws|].
  revert Hws. vm_compute. intros [= <-]. reflexivity.
Defined.

(** C8.  For a duration [len > 0], a chunk length [> 0] and an overlap with
    [0 < overlap_ms < chunk_ms], [chunk_audio] returns, and every window
    [(start_ms, end_ms)] it returns has [0 <= start_ms < end_ms <= len]. *)
Theorem chunk_audio_windows_bounded : forall len chunk_ms overlap_ms,
  0 < len -> 0 < chunk_ms -> 0 < overlap_ms < chunk_ms ->
  exists ws,
    chunk_audio len chunk_ms overlap_ms = Some ws /\
    Forall (fun w : window => 0 <= fst w /\ fst w < snd w /\ snd w <= len) ws.
Proof.
  intros len c o Hlen Hc Hoc.
  destruct (chunk_audio_chain len c o) as (ws & Hws & Hch); [lia|lia|].
  exists ws. split; [exact Hws|].
  eapply Forall_impl; [|eapply chain_bounds; [| |exact Hch|]; lia].
  simpl. intros w. lia.
Qed.

Lemma chunk_audio_windows_bounded_witness :
  exists ws,
    chunk_audio 100 30 10 = Some ws /\
    Forall (fun w : window => 0 <= fst w /\ fst w < snd w /\ snd w <= 100) ws.
Proof. apply (chunk_audio_windows_bounded 100 30 10); lia. Defined.

(** C1.  For [0 < overlap_ms < chunk_ms <= len], [chunk_audio] returns a
    list of windows such that: an instant lies in some window exactly when
    it lies in [[0, len)] (the union covers the input, with no gap); the
    first window starts at 0; the last window ends at [len]; every window
    that has a successor has length exactly [chunk_ms]; every successor
    starts at its predecessor's end minus [overlap_ms], which is later than
    the predecessor's start. *)
Theorem chunk_audio_covers : forall len chunk_ms overlap_ms,
  0 < overlap_ms -> overlap_ms < chunk_ms -> chunk_ms <= len ->
  exists ws,
    chunk_audio len chunk_ms overlap_ms = Some ws /\
    (forall t, 0 <= t < len <-> Exists (fun w : window => fst w <= t < snd w) ws) /\
    (exists e, hd_error ws = Some (0, e)) /\
    (exists s, ws <> [] /\ last ws (0, 0) = (s, len)) /\
    (forall k w1 w2,
        nth_error ws k = Some w1 -> nth_error ws (S k) = Some w2 ->
        snd w1 - fst w1 = chunk_ms /\
        fst w2 = snd w1 - overlap_ms /\
        fst w1 < fst w2 /\ fst w2 < snd w1).
Proof.
  intros len c o Ho Hoc Hlen.
  destruct (chunk_audio_chain len c o) as (ws & Hws & Hch); [lia|lia|].
  assert (HF := chain_bounds len c o Hoc ltac:(lia) 0 ws Hch ltac:(lia)).
  rewrite Forall_forall in HF.
  exists ws. split; [exact Hws|]. split; [|split; [|split]].
  - intros t. split.
    + intros Ht. eapply chain_covers; [|exact Hch|exact Ht]. lia.
    + intros Hex. apply Exists_exists in Hex. destruct Hex as (w & Hin & Hw).
      specialize (HF w Hin). lia.
  - eapply chain_head; exact Hch.
  - destruct (chain_last_end _ _ _ _ _ Hch) as [s Hs].
    exists s. split; [eapply chain_nonempty; exact Hch|exact Hs].
  - intros k w1 w2 H1 H2.
    destruct (chain_consecutive _ _ _ _ _ Hch k w1 w2 H1 H2). lia.
Qed.

Lemma chunk_audio_covers_witness :
  exists ws,
    chunk_audio 100 30 10 = Some ws /\
    ws = [(0, 30); (20, 50); (40, 70); (60, 90); (80, 100)].
Proof.
  destruct (chunk_audio_covers 100 30 10) as (ws & Hws & _); [lia|lia|lia|].
  exists ws. split; [exact Hws|].
  revert Hws. vm_compute. intros [= <-]. reflexivity.
Defined.

(** C3, amended.  For every duration with [0 < len <= chunk_ms],
    [chunk_audio] returns exactly one window, [(0, len)], whatever the
    overlap. *)
Theorem chunk_audio_single_window : forall len chunk_ms overlap_ms,
  0 < len -> len <= chunk_ms ->
  chunk_audio len chunk_ms overlap_ms = Some [(0, len)].
Proof.
  intros len c o Hlen Hc. unfold chunk_audio. rewrite chunk_loop_S.
  destruct (Z.ltb_spec 0 len); [|lia].
  assert (Hm : Z.min (0 + c) len = len) by lia. rewrite Hm.
  now rewrite Z.eqb_refl.
Qed.

Lemma chunk_audio_single_window_witness :
  chunk_audio 8000 30000 1000 = Some [(0, 8000)].
Proof. apply chunk_audio_single_window; lia. Defined.

(** C3 as stated fails at duration 0, which is not above the chunk length:
    the loop guard [i < len(seg)] is false at once and no window is made. *)
Lemma chunk_audio_single_window_fails_at_zero :
  0 <= default_chunk_ms /\
  chunk_audio 0 default_chunk_ms default_overlap_ms = Some [] /\
  chunk_audio 0 default_chunk_ms default_overlap_ms <> Some [(0, 0)].
Proof. repeat split; [discriminate | discriminate]. Qed.

(* ================================================================== *)
(** ** Decimal printing *)

(** Linear arithmetic with divisions by constants. *)
Ltac dlia := Z.div_mod_to_equations; lia.

(** Linear arithmetic on lengths of strings: [char] is [N]. *)
Ltac slia := unfold str, char in *; lia.

Section Decimal.

Lemma pow2_S (f : nat) : 2 ^ Z.of_nat (S f) = 2 * 2 ^ Z.of_nat f.
Proof. rewrite Nat2Z.inj_succ. apply Z.pow_succ_r. lia. Qed.

Lemma pow2_pos (f : nat) : 0 < 2 ^ Z.of_nat f.
Proof. apply Z.pow_pos_nonneg; lia. Qed.

Lemma div10_bound n p : 0 <= n < 2 * p -> 0 <= n / 10 < p.
Proof.
  intros H. dlia.
Qed.

(** Enough fuel is enough: the digits do not depend on it. *)
Lemma digits_fuel_indep : forall f1 f2 n,
  0 <= n < 2 ^ Z.of_nat (S f1) -> n < 2 ^ Z.of_nat (S f2) ->
  digits_fuel (S f1) n = digits_fuel (S f2) n.
Proof.
  induction f1 as [|f1 IH]; intros f2 n H1 H2.
  - change (2 ^ Z.of_nat 1) with 2 in H1. simpl.
    destruct (Z.ltb_spec n 10); [reflexivity|lia].
  - cbn [digits_fuel]. destruct (Z.ltb_spec n 10) as [|Hn]; [reflexivity|].
    destruct f2 as [|f2].
    + change (2 ^ Z.of_nat 1) with 2 in H2. lia.
    + f_equal. rewrite pow2_S in H1, H2.
      apply IH; apply div10_bound; lia.
Qed.

Lemma digits_unfold n : 0 <= n ->
  digits n = if n <? 10 then [digit n]
             else digits (n / 10) ++ [digit (n mod 10)].
Proof.
  intros Hn. unfold digits at 1. cbn [digits_fuel].
  destruct (Z.ltb_spec n 10) as [|H10]; [reflexivity|].
  f_equal. unfold digits.
  assert (L := Z.log2_spec n ltac:(lia)).
  assert (L' := Z.log2_spec (n / 10) ltac:(dlia)).
  assert (L3 : 3 <= Z.log2 n) by (apply Z.log2_le_pow2; simpl; lia).
  assert (L0 := Z.log2_nonneg (n / 10)).
  destruct (Z.to_nat (Z.log2 n)) as [|k] eqn:Ek; [lia|].
  apply digits_fuel_indep.
  - replace (Z.of_nat (S k)) with (Z.log2 n) by lia.
    rewrite Z.pow_succ_r in L by lia. apply div10_bound. lia.
  - replace (Z.of_nat (S (Z.to_nat (Z.log2 (n / 10)))))
      with (Z.succ (Z.log2 (n / 10))) by lia.
    lia.
Qed.

(** Induction along the digits of a number. *)
Lemma digits_ind (P : Z -> Prop) :
  (forall n, 0 <= n < 10 -> P n) ->
  (forall n, 10 <= n -> P (n / 10) -> P n) ->
  forall n, 0 <= n -> P n.
Proof.
  intros Hlow Hstep n Hn. pattern n. apply Zlt_0_ind; [|exact Hn].
  clear n Hn. intros n IH Hn.
  destruct (Z.lt_ge_cases n 10); [apply Hlow; lia|].
  apply Hstep; [lia|]. apply IH. dlia.
Qed.

Lemma digits_small n : 0 <= n < 10 -> digits n = [digit n].
Proof.
  intros Hn. rewrite digits_unfold by lia.
  destruct (Z.ltb_spec n 10); [reflexivity|lia].
Qed.

Lemma digits_big n :
  10 <= n -> digits n = digits (n / 10) ++ [digit (n mod 10)].
Proof.
  intros Hn. rewrite digits_unfold by lia.
  destruct (Z.ltb_spec n 10); [lia|reflexivity].
Qed.

Lemma digit_isdigit d : 0 <= d < 10 -> isdigit (digit d) = true.
Proof.
  intros Hd. unfold isdigit, digit.
  apply andb_true_intro. split; apply N.leb_le; lia.
Qed.

Lemma digit_value d : 0 <= d < 10 -> Z.of_N (digit d) - 48 = d.
Proof. intros Hd. unfold digit. lia. Qed.

Lemma decimal_value_app s c :
  decimal_value (s ++ [c]) = 10 * decimal_value s + (Z.of_N c - 48).
Proof. unfold decimal_value. now rewrite fold_left_app. Qed.

(** The digits are digits, and read back as the number. *)
Lemma digits_isdigit n : 0 <= n -> forallb isdigit (digits n) = true.
Proof.
  revert n. apply digits_ind.
  - intros n Hn. rewrite digits_small by lia. simpl.
    now rewrite digit_isdigit.
  - intros n Hn IH. rewrite digits_big by lia.
    rewrite forallb_app, IH. simpl.
    rewrite digit_isdigit by dlia. reflexivity.
Qed.

Lemma digits_value n : 0 <= n -> decimal_value (digits n) = n.
Proof.
  revert n. apply digits_ind.
  - intros n Hn. rewrite digits_small by lia.
    unfold decimal_value. simpl. rewrite digit_value by lia. lia.
  - intros n Hn IH. rewrite digits_big by lia.
    rewrite decimal_value_app, IH, digit_value by dlia. dlia.
Qed.

Lemma pow10_S (k : nat) : 10 ^ Z.of_nat (S k) = 10 * 10 ^ Z.of_nat k.
Proof. rewrite Nat2Z.inj_succ. apply Z.pow_succ_r. lia. Qed.

(** A number below [10^k] has at most [k] digits; one from [10^k] on has
    more. *)
Lemma digits_length_le : forall k n,
  0 <= n < 10 ^ Z.of_nat (S k) -> (1 <= length (digits n) <= S k)%nat.
Proof.
  induction k as [|k IH]; intros n Hn.
  - change (10 ^ Z.of_nat 1) with 10 in Hn.
    rewrite digits_small by lia. simpl. lia.
  - destruct (Z.lt_ge_cases n 10) as [Hs|Hb].
    + rewrite digits_small by lia. simpl. lia.
    + rewrite digits_big by lia. rewrite length_app. simpl.
      rewrite pow10_S in Hn.
      assert (Hq : 0 <= n / 10 < 10 ^ Z.of_nat (S k)) by dlia.
      specialize (IH _ Hq). lia.
Qed.

Lemma digits_length_gt : forall k n,
  0 <= n -> 10 ^ Z.of_nat k <= n -> (k < length (digits n))%nat.
Proof.
  induction k as [|k IH]; intros n H0 Hn.
  - destruct (Z.lt_ge_cases n 10) as [Hs|Hb].
    + rewrite digits_small by lia. simpl. lia.
    + rewrite digits_big by lia. rewrite length_app. simpl. lia.
  - rewrite pow10_S in Hn.
    assert (Hp : 0 < 10 ^ Z.of_nat k) by (apply Z.pow_pos_nonneg; lia).
    rewrite digits_big by lia. rewrite length_app. simpl.
    assert (Hq : 10 ^ Z.of_nat k <= n / 10) by dlia.
    specialize (IH (n / 10) ltac:(dlia) Hq). lia.
Qed.

(** No zero in front of a positive number. *)
Lemma digits_head n : 0 < n ->
  exists c s, digits n = c :: s /\ c <> 48%N.
Proof.
  intros Hn. assert (H0 : 0 <= n) by lia. revert n H0 Hn.
  apply (digits_ind (fun n => 0 < n -> exists c s, digits n = c :: s /\ c <> 48%N)).
  - intros n Hn Hp. rewrite digits_small by lia.
    exists (digit n), []. split; [reflexivity|]. unfold digit. lia.
  - intros n Hn IH _. rewrite digits_big by lia.
    destruct IH as (c & s & E & Hc); [dlia|].
    rewrite E. exists c, (s ++ [digit (n mod 10)]). split; [reflexivity|exact Hc].
Qed.

(** *** Zero padding *)

Lemma zfill_length w s : length (zfill w s) = Nat.max w (length s).
Proof. unfold zfill. rewrite length_app, repeat_length. slia. Qed.

Lemma zfill_isdigit w s : forallb isdigit (zfill w s) = forallb isdigit s.
Proof.
  unfold zfill. rewrite forallb_app.
  induction (w - length s)%nat as [|k IH]; [reflexivity|exact IH].
Qed.

Lemma zfill_value w s : decimal_value (zfill w s) = decimal_value s.
Proof.
  unfold zfill, decimal_value. rewrite fold_left_app. f_equal.
  induction (w - length s)%nat as [|k IH]; [reflexivity|exact IH].
Qed.

Lemma zfill_long w s : (w <= length s)%nat -> zfill w s = s.
Proof.
  intros H. unfold zfill. replace (w - length s)%nat with 0%nat by lia.
  reflexivity.
Qed.

Lemma format_0d_nonneg w n : 0 <= n -> format_0d w n = zfill w (digits n).
Proof.
  intros Hn. unfold format_0d. destruct (Z.ltb_spec n 0); [lia|reflexivity].
Qed.

(** A field of fixed width: [n] below [10^w] printed with [0wd] is [w]
    digits that read [n]. *)
Lemma format_0d_numeral w n : 0 <= n < 10 ^ Z.of_nat (S w) ->
  numeral (S w) n (format_0d (S w) n).
Proof.
  intros Hn. rewrite format_0d_nonneg by lia.
  assert (L := digits_length_le w n Hn).
  unfold numeral. rewrite zfill_length, zfill_isdigit, zfill_value.
  rewrite digits_isdigit, digits_value by lia.
  repeat split. lia.
Qed.

(** A field that may outgrow its width: never shorter than [w], exactly
    [w] when [n] is below [10^w], and with no zero in front when longer. *)
Lemma format_0d_padded w n : 0 <= n ->
  let s := format_0d (S w) n in
  (S w <= length s)%nat /\
  forallb isdigit s = true /\
  decimal_value s = n /\
  (length s = S w <-> n < 10 ^ Z.of_nat (S w)) /\
  ((S w < length s)%nat -> hd_error s <> Some 48%N).
Proof.
  intros Hn s. subst s. rewrite format_0d_nonneg by lia.
  rewrite zfill_length, zfill_isdigit, zfill_value.
  rewrite digits_isdigit, digits_value by lia.
  split; [lia|]. split; [reflexivity|]. split; [reflexivity|]. split.
  - split.
    + intros E. destruct (Z.lt_ge_cases n (10 ^ Z.of_nat (S w))) as [|Hge]; [assumption|].
      assert (G := digits_length_gt (S w) n Hn Hge). lia.
    + intros Hlt. assert (L := digits_length_le w n (conj Hn Hlt)). lia.
  - intros Hlong. rewrite zfill_long by lia.
    assert (Hp : 0 < n).
    { destruct (Z.eq_dec n 0) as [->|]; [|lia].
      exfalso. revert Hlong. rewrite digits_small by lia. simpl. lia. }
    destruct (digits_head n Hp) as (c & t & E & Hc).
    rewrite E. simpl. congruence.
Qed.

End Decimal.

(* ================================================================== *)
(** ** Timestamps and the subtitle file *)

Section Srt.

(** C4.  For every [ms >= 0], [ms_to_srt_time ms] is [HH:MM:SS,mmm] where
    [ms] is [h] hours, [m < 60] minutes, [s < 60] seconds and [r < 1000]
    milliseconds: [MM] and [SS] are exactly two digits reading [m] and [s],
    [mmm] is exactly three digits reading [r], and [HH] is digits reading
    [h], zero-padded to two (exactly two when [h < 100], and with no zero
    in front when longer).  In particular 0, 61234 and 3661000 give
    ["00:00:00,000"], ["00:01:01,234"] and ["01:01:01,000"]. *)
Theorem ms_to_srt_time_format :
  (forall ms, 0 <= ms ->
     exists h m s r hh mm ss mmm,
       ms = ((h * 60 + m) * 60 + s) * 1000 + r /\
       0 <= h /\ 0 <= m < 60 /\ 0 <= s < 60 /\ 0 <= r < 1000 /\
       ms_to_srt_time ms = hh ++ py ":" ++ mm ++ py ":" ++ ss ++ py "," ++ mmm /\
       (2 <= length hh)%nat /\ forallb isdigit hh = true /\
       decimal_value hh = h /\
       (length hh = 2%nat <-> h < 100) /\
       ((2 < length hh)%nat -> hd_error hh <> Some 48%N) /\
       numeral 2 m mm /\ numeral 2 s ss /\ numeral 3 r mmm) /\
  ms_to_srt_time 0 = py "00:00:00,000" /\
  ms_to_srt_time 61234 = py "00:01:01,234" /\
  ms_to_srt_time 3661000 = py "01:01:01,000".
Proof.
  split; [|repeat split; vm_compute; reflexivity].
  intros ms Hms.
  exists (ms / 1000 / 3600), (ms / 1000 mod 3600 / 60),
    (ms / 1000 mod 3600 mod 60), (ms mod 1000).
  exists (format_0d 2 (ms / 1000 / 3600)),
    (format_0d 2 (ms / 1000 mod 3600 / 60)),
    (format_0d 2 (ms / 1000 mod 3600 mod 60)),
    (format_0d 3 (ms mod 1000)).
  assert (Hh : 0 <= ms / 1000 / 3600) by dlia.
  assert (Hm : 0 <= ms / 1000 mod 3600 / 60 < 60) by dlia.
  assert (Hs : 0 <= ms / 1000 mod 3600 mod 60 < 60) by dlia.
  assert (Hr : 0 <= ms mod 1000 < 1000) by dlia.
  destruct (format_0d_padded 1 _ Hh) as (P1 & P2 & P3 & P4 & P5).
  split; [dlia|]. do 4 (split; [assumption|]).
  split; [reflexivity|].
  do 3 (split; [assumption|]).
  split; [exact P4|]. split; [exact P5|].
  repeat split; apply format_0d_numeral;
    (change (10 ^ Z.of_nat 2) with 100 || change (10 ^ Z.of_nat 3) with 1000); lia.
Qed.

Lemma ms_to_srt_time_format_witness :
  exists hh mm ss mmm,
    ms_to_srt_time 61234 = hh ++ py ":" ++ mm ++ py ":" ++ ss ++ py "," ++ mmm /\
    numeral 2 1 mm /\ numeral 2 1 ss /\ numeral 3 234 mmm /\ decimal_value hh = 0.
Proof.
  destruct (proj1 ms_to_srt_time_format 61234 ltac:(lia))
    as (h & m & s & r & hh & mm & ss & mmm & E & Hh & Hm & Hs & Hr & Eq & _ & _
        & Vh & _ & _ & Nm & Ns & Nr).
  assert (h = 0 /\ m = 1 /\ s = 1 /\ r = 234) as (-> & -> & -> & ->) by lia.
  exists hh, mm, ss, mmm. repeat split; try assumption;
    first [apply Nm | apply Ns | apply Nr].
Defined.

(** The loop appends, to what it was given, the entries of its segments. *)
Lemma write_srt_loop_entries : forall segments idx lines,
  write_srt_loop idx segments lines = lines ++ srt_entries idx segments.
Proof.
  induction segments as [|[[start end_] text] segments IH]; intros idx lines.
  - simpl. now rewrite app_nil_r.
  - simpl. rewrite IH. repeat rewrite <- app_assoc. reflexivity.
Qed.

Lemma srt_lines_entries segments : srt_lines segments = srt_entries 1 segments.
Proof. unfold srt_lines. now rewrite write_srt_loop_entries. Qed.

Lemma srt_entry_length idx seg : length (srt_entry idx seg) = 4%nat.
Proof. destruct seg as [[start end_] text]. reflexivity. Qed.

Lemma srt_entries_length : forall segments idx,
  length (srt_entries idx segments) = (4 * length segments)%nat.
Proof.
  induction segments as [|seg segments IH]; intros idx; [reflexivity|].
  simpl srt_entries. rewrite length_app, srt_entry_length, IH. simpl. lia.
Qed.

(** Line [j] of entry [k] is line [j] of the entry of segment [k], numbered
    [idx + k]. *)
Lemma srt_entries_nth : forall segments idx k seg j,
  nth_error segments k = Some seg -> (j < 4)%nat ->
  nth_error (srt_entries idx segments) (4 * k + j) =
  nth_error (srt_entry (idx + Z.of_nat k) seg) j.
Proof.
  induction segments as [|seg0 segments IH]; intros idx k seg j Hk Hj.
  - destruct k; discriminate.
  - destruct k as [|k].
    + simpl in Hk. injection Hk as ->. simpl srt_entries.
      rewrite nth_error_app1 by (rewrite srt_entry_length; lia).
      replace (idx + Z.of_nat 0) with idx by lia. f_equal.
    + simpl in Hk. simpl srt_entries.
      rewrite nth_error_app2 by (rewrite srt_entry_length; lia).
      rewrite srt_entry_length.
      replace (4 * S k + j - 4)%nat with (4 * k + j)%nat by lia.
      rewrite (IH (idx + 1) k seg j Hk Hj). do 2 f_equal. lia.
Qed.

(** C5.  For every list of segments, the lines [write_srt] joins are four
    per segment, in list order: for the segment at position [k] (from 0)
    the line [str(k + 1)], a numeral reading [k + 1]; the line
    [<start> --> <end>] of the two timestamps; the text stripped; and an
    empty line.  The text written is these lines joined by line feeds.  For
    [(0,1000,"a"), (1000,2000,"b")] the lines are "1",
    "00:00:00,000 --> 00:00:01,000", "a", "", "2",
    "00:00:01,000 --> 00:00:02,000", "b", "". *)
Theorem write_srt_layout :
  (forall segments,
     write_srt segments = join LF (srt_lines segments) /\
     length (srt_lines segments) = (4 * length segments)%nat /\
     forall k start end_ text,
       nth_error segments k = Some (start, end_, text) ->
       nth_error (srt_lines segments) (4 * k) = Some (str_int (Z.of_nat k + 1)) /\
       forallb isdigit (str_int (Z.of_nat k + 1)) = true /\
       decimal_value (str_int (Z.of_nat k + 1)) = Z.of_nat k + 1 /\
       nth_error (srt_lines segments) (4 * k + 1) =
         Some (ms_to_srt_time start ++ py " --> " ++ ms_to_srt_time end_) /\
       nth_error (srt_lines segments) (4 * k + 2) = Some (strip text) /\
       nth_error (srt_lines segments) (4 * k + 3) = Some []) /\
  srt_lines [(0, 1000, py "a"); (1000, 2000, py "b")] =
    [py "1"; py "00:00:00,000 --> 00:00:01,000"; py "a"; py "";
     py "2"; py "00:00:01,000 --> 00:00:02,000"; py "b"; py ""] /\
  write_srt [(0, 1000, py "a"); (1000, 2000, py "b")] =
    py "1" ++ LF ++ py "00:00:00,000 --> 00:00:01,000" ++ LF ++ py "a" ++ LF
      ++ LF ++
    py "2" ++ LF ++ py "00:00:01,000 --> 00:00:02,000" ++ LF ++ py "b" ++ LF.
Proof.
  split; [|split; vm_compute; reflexivity].
  intros segments. split; [reflexivity|].
  rewrite srt_lines_entries. split; [apply srt_entries_length|].
  intros k start end_ text Hk.
  assert (Hn : 0 <= Z.of_nat k + 1) by lia.
  assert (E : str_int (Z.of_nat k + 1) = digits (Z.of_nat k + 1)).
  { unfold str_int. destruct (Z.ltb_spec (Z.of_nat k + 1) 0); [lia|reflexivity]. }
  split; [|split; [|split; [|split; [|split]]]].
  - replace (4 * k)%nat with (4 * k + 0)%nat by lia.
    rewrite (srt_entries_nth _ 1 k _ 0%nat Hk) by lia.
    cbn [srt_entry nth_error]. do 2 f_equal. lia.
  - rewrite E. apply digits_isdigit. lia.
  - rewrite E. apply digits_value. lia.
  - now rewrite (srt_entries_nth _ 1 k _ 1%nat Hk) by lia.
  - now rewrite (srt_entries_nth _ 1 k _ 2%nat Hk) by lia.
  - now rewrite (srt_entries_nth _ 1 k _ 3%nat Hk) by lia.
Qed.

Lemma write_srt_layout_witness :
  nth_error (srt_lines [(0, 1000, py "a"); (1000, 2000, py " b ")]) 4 = Some (py "2") /\
  nth_error (srt_lines [(0, 1000, py "a"); (1000, 2000, py " b ")]) 6 = Some (py "b").
Proof.
  destruct (proj1 write_srt_layout [(0, 1000, py "a"); (1000, 2000, py " b ")])
    as (_ & _ & H).
  destruct (H 1%nat 1000 2000 (py " b ") eq_refl) as (H0 & _ & _ & _ & H2 & _).
  split; [exact H0|exact H2].
Defined.

End Srt.

(* ================================================================== *)
(** ** Stripping *)

Section Strip.

Lemma lstrip_nil s : lstrip s = [] <-> forallb isspace s = true.
Proof.
  induction s as [|c s IH]; simpl; [tauto|].
  destruct (isspace c); simpl; [exact IH|].
  split; discriminate.
Qed.

Lemma lstrip_spaces : forall s,
  forallb isspace (lstrip s) = true -> lstrip s = [].
Proof.
  induction s as [|c s IH]; simpl; [reflexivity|].
  destruct (isspace c) eqn:E; [exact IH|].
  simpl. rewrite E. discriminate.
Qed.

Lemma forallb_rev {A} (f : A -> bool) l : forallb f (rev l) = forallb f l.
Proof.
  induction l as [|x l IH]; [reflexivity|].
  simpl. rewrite forallb_app, IH. simpl.
  now rewrite andb_true_r, andb_comm.
Qed.

(** Stripping leaves nothing exactly when every character is whitespace. *)
Lemma strip_nil s : strip s = [] <-> forallb isspace s = true.
Proof.
  unfold strip, rstrip. split.
  - intros H. apply lstrip_nil, lstrip_spaces.
    rewrite <- forallb_rev. apply lstrip_nil.
    apply (f_equal (@rev char)) in H. now rewrite rev_involutive in H.
  - intros H. apply lstrip_nil in H. now rewrite H.
Qed.

Lemma kept_false text : kept text = false <-> forallb isspace text = true.
Proof.
  rewrite <- strip_nil. unfold kept, truthy.
  destruct (strip text); split; congruence.
Qed.

End Strip.

(* ================================================================== *)
(** ** The recognition loop *)

Section Loop.

Variable rich_print : printer.
Variable recognize : window -> outcome.

Lemma locals_eta st :
  mkLocals (srt_segments st) (texts st) (printed st ++ []) = st.
Proof. destruct st. simpl. now rewrite app_nil_r. Qed.

(** A pass over a window whose call returned [text]. *)
Lemma transcribe_loop_returned start_ms end_ms rest st text :
  recognize (start_ms, end_ms) = Returned text ->
  transcribe_loop rich_print recognize ((start_ms, end_ms) :: rest) st =
  transcribe_loop rich_print recognize rest
    (if truthy (strip text)
     then mkLocals (srt_segments st ++ [(start_ms, end_ms, text)])
                   (texts st ++ [text]) (printed st)
     else st).
Proof.
  intros E. simpl. rewrite E. simpl.
  destruct (truthy (strip text)).
  - now rewrite app_nil_r.
  - now rewrite locals_eta.
Qed.

(** A pass over a window whose call raised [UnknownValueError]. *)
Lemma transcribe_loop_unknown w rest st :
  recognize w = UnknownValueError ->
  transcribe_loop rich_print recognize (w :: rest) st =
  transcribe_loop rich_print recognize rest st.
Proof.
  intros E. destruct w as [start_ms end_ms]. simpl. rewrite E. simpl.
  now rewrite locals_eta.
Qed.

(** A pass over a window whose call raised [RequestError], when the
    [print] of the handler returns, and when it raises. *)
Lemma transcribe_loop_request_printed w rest st e :
  recognize w = RequestError e ->
  rich_print (request_error_msg e) = None ->
  transcribe_loop rich_print recognize (w :: rest) st =
  transcribe_loop rich_print recognize rest
    (mkLocals (srt_segments st) (texts st)
              (printed st ++ [request_error_msg e])).
Proof.
  intros E Hp. destruct w as [start_ms end_ms]. simpl. rewrite E. simpl.
  rewrite Hp. reflexivity.
Qed.

Lemma transcribe_loop_request_print_raises w rest st e exn :
  recognize w = RequestError e ->
  rich_print (request_error_msg e) = Some exn ->
  transcribe_loop rich_print recognize (w :: rest) st = inr exn.
Proof.
  intros E Hp. destruct w as [start_ms end_ms]. simpl. rewrite E. simpl.
  rewrite Hp. reflexivity.
Qed.

(** The loop over two lists in a row. *)
Lemma transcribe_loop_app : forall ws1 ws2 st st1,
  transcribe_loop rich_print recognize ws1 st = inl st1 ->
  transcribe_loop rich_print recognize (ws1 ++ ws2) st =
  transcribe_loop rich_print recognize ws2 st1.
Proof.
  induction ws1 as [|[s0 e0] ws1 IH]; intros ws2 st st1 E.
  - simpl in E. injection E as <-. reflexivity.
  - cbn [app transcribe_loop] in *.
    destruct (recognized_text rich_print (recognize (s0, e0)))
      as [[text out]|e0']; [|discriminate].
    now apply IH.
Qed.

(** The whole loop, when every pass goes on to the next. *)
Lemma transcribe_loop_survives : forall windows st,
  forallb (fun w => passes rich_print (recognize w)) windows = true ->
  exists st',
    transcribe_loop rich_print recognize windows st = inl st' /\
    srt_segments st' = srt_segments st ++ kept_segments recognize windows /\
    texts st' = texts st ++ kept_texts recognize windows.
Proof.
  unfold kept_segments, kept_texts.
  induction windows as [|[start_ms end_ms] windows IH]; intros st Hs.
  - exists st. simpl. now rewrite !app_nil_r.
  - simpl in Hs. apply andb_prop in Hs. destruct Hs as [Hw Hs].
    cbn [transcribe_loop map filter].
    unfold passes, leaves_with in Hw.
    destruct (recognize (start_ms, end_ms)) as [text| |e|e] eqn:R;
      try discriminate; cbn [recognized_text window_text].
    + fold (kept text). destruct (kept text);
        cbn [srt_segments texts printed map];
        edestruct IH as (st' & E & Hseg & Htxt); try exact Hs;
        exists st'; (split; [exact E|]);
        cbn [srt_segments texts printed fst snd] in Hseg, Htxt;
        rewrite Hseg, Htxt, <- ?app_assoc; cbn [fst snd]; rewrite ?R;
        split; reflexivity.
    + change (kept []) with false. cbn iota.
      edestruct IH as (st' & E & Hseg & Htxt); try exact Hs.
      exists st'. split; [exact E|]. split; assumption.
    + destruct (rich_print (request_error_msg e)); [discriminate|].
      change (kept []) with false. cbn iota.
      edestruct IH as (st' & E & Hseg & Htxt); try exact Hs.
      exists st'. split; [exact E|]. split; assumption.
Qed.

(** A loop that returned had every pass go on. *)
Lemma transcribe_loop_inl : forall windows st st',
  transcribe_loop rich_print recognize windows st = inl st' ->
  forallb (fun w => passes rich_print (recognize w)) windows = true.
Proof.
  induction windows as [|[start_ms end_ms] windows IH]; intros st st' E;
    [reflexivity|].
  cbn [transcribe_loop forallb] in *. unfold passes at 1, leaves_with.
  destruct (recognize (start_ms, end_ms)) as [text| |e|e];
    cbn [recognized_text andb] in *; try discriminate;
    try (eapply IH; exact E).
  destruct (rich_print (request_error_msg e)); [discriminate|].
  eapply IH. exact E.
Qed.

End Loop.

(** C2, which the code breaks.  A window whose call raises
    [UnknownValueError] changes nothing and the loop goes on, under every
    [print].  A window whose call raises [RequestError] is treated the same
    way only when the [print] of its handler returns: the loop then goes on
    with the segments and the texts unchanged.  When that [print] raises,
    as the one of [rich] does on a message that is not well-formed markup,
    its exception leaves the loop at once: the windows that follow are not
    processed, and [transcribe_wav_google] raises. *)
Theorem request_error_print_aborts :
  forall rich_print recognize w rest st e exn,
  recognize w = RequestError e ->
  rich_print (request_error_msg e) = Some exn ->
  transcribe_loop rich_print recognize (w :: rest) st = inr exn /\
  (forall len chunk_ms overlap_ms ws1,
     chunk_audio len chunk_ms overlap_ms = Some (ws1 ++ w :: rest) ->
     forallb (fun w => passes rich_print (recognize w)) ws1 = true ->
     transcribe_wav_google rich_print len recognize chunk_ms overlap_ms =
     Raises exn) /\
  (forall w' rest' st',
     recognize w' = UnknownValueError ->
     transcribe_loop rich_print recognize (w' :: rest') st' =
     transcribe_loop rich_print recognize rest' st') /\
  (forall w' rest' st' e',
     recognize w' = RequestError e' ->
     rich_print (request_error_msg e') = None ->
     transcribe_loop rich_print recognize (w' :: rest') st' =
     transcribe_loop rich_print recognize rest'
       (mkLocals (srt_segments st') (texts st')
                 (printed st' ++ [request_error_msg e']))).
Proof.
  intros rich_print recognize w rest st e exn Hw Hp.
  split; [|split; [|split]].
  - now apply transcribe_loop_request_print_raises with (e := e).
  - intros len c o ws1 Hc Hs. unfold transcribe_wav_google. rewrite Hc.
    destruct (transcribe_loop_survives rich_print recognize ws1
                (mkLocals [] [] []) Hs) as (st1 & E1 & _).
    rewrite (transcribe_loop_app rich_print recognize _ _ _ _ E1).
    now rewrite (transcribe_loop_request_print_raises rich_print recognize
                   w rest st1 e exn Hw Hp).
  - intros w' rest' st' E. now apply transcribe_loop_unknown.
  - intros w' rest' st' e' E Hp'. now apply transcribe_loop_request_printed.
Qed.

Lemma request_error_print_aborts_witness :
  transcribe_wav_google
    (print_rejecting (request_error_msg (py "bad [/x] tag")) (py "MarkupError"))
    70000
    (fun w => if fst w =? 0 then Returned (py "hello")
              else if fst w =? 29000 then RequestError (py "bad [/x] tag")
              else Returned (py "world"))
    30000 1000 = Raises (py "MarkupError").
Proof.
  destruct (request_error_print_aborts
              (print_rejecting (request_error_msg (py "bad [/x] tag"))
                               (py "MarkupError"))
              (fun w => if fst w =? 0 then Returned (py "hello")
                        else if fst w =? 29000 then RequestError (py "bad [/x] tag")
                        else Returned (py "world"))
              (29000, 59000) [(58000, 70000)] (mkLocals [] [] [])
              (py "bad [/x] tag") (py "MarkupError") eq_refl)
    as (_ & H & _); [vm_compute; reflexivity|].
  apply (H 70000 30000 1000 [(0, 30000)]); vm_compute; reflexivity.
Defined.

(** C6, amended.  For every sequence of windows and of outcomes of their
    passes, when the loop returns the texts it has collected are the texts
    of the windows whose text is non-empty after stripping, in window
    order, and the full text [transcribe_wav_google] returns is these
    joined by single spaces; it returns whenever every pass goes on (no
    exception that is not caught, no [print] that raises).  Texts "hello"
    and "world" give "hello world". *)
Theorem transcript_joins_kept_texts :
  (forall rich_print recognize windows st,
     transcribe_loop rich_print recognize windows (mkLocals [] [] []) = inl st ->
     texts st = filter (fun text => truthy (strip text))
                       (map (fun w => window_text (recognize w)) windows)) /\
  (forall rich_print len recognize chunk_ms overlap_ms full segs out,
     transcribe_wav_google rich_print len recognize chunk_ms overlap_ms =
     Returns full segs out ->
     exists windows,
       chunk_audio len chunk_ms overlap_ms = Some windows /\
       full = join (py " ")
                (filter (fun text => truthy (strip text))
                        (map (fun w => window_text (recognize w)) windows))) /\
  (forall rich_print len recognize chunk_ms overlap_ms windows,
     chunk_audio len chunk_ms overlap_ms = Some windows ->
     forallb (fun w => passes rich_print (recognize w)) windows = true ->
     exists segs out,
       transcribe_wav_google rich_print len recognize chunk_ms overlap_ms =
       Returns
         (join (py " ")
               (filter (fun text => truthy (strip text))
                       (map (fun w => window_text (recognize w)) windows)))
         segs out) /\
  (forall a b, join (py " ") [a; b] = a ++ py " " ++ b) /\
  (forall rich_print,
     transcribe_wav_google rich_print 50000
       (fun w => if fst w =? 0 then Returned (py "hello")
                 else Returned (py "world"))
       30000 1000 =
     Returns (py "hello world")
             [(0, 30000, py "hello"); (29000, 50000, py "world")] []).
Proof.
  split; [|split; [|split; [|split; [reflexivity|]]]].
  - intros rich_print recognize windows st E.
    assert (Hs := transcribe_loop_inl rich_print recognize _ _ _ E).
    destruct (transcribe_loop_survives rich_print recognize windows
                (mkLocals [] [] []) Hs) as (st' & E' & _ & Htxt).
    rewrite E in E'. injection E' as <-. exact Htxt.
  - intros rich_print len recognize c o full segs out.
    unfold transcribe_wav_google.
    destruct (chunk_audio len c o) as [windows|]; [|discriminate].
    destruct (transcribe_loop rich_print recognize windows (mkLocals [] [] []))
      as [st|e] eqn:E; [|discriminate].
    intros [= <- _ _]. exists windows. split; [reflexivity|].
    assert (Hs := transcribe_loop_inl rich_print recognize _ _ _ E).
    destruct (transcribe_loop_survives rich_print recognize windows
                (mkLocals [] [] []) Hs) as (st' & E' & _ & Htxt).
    rewrite E in E'. injection E' as <-. simpl in Htxt. now rewrite Htxt.
  - intros rich_print len recognize c o windows Hw Hs.
    unfold transcribe_wav_google. rewrite Hw.
    destruct (transcribe_loop_survives rich_print recognize windows
                (mkLocals [] [] []) Hs) as (st' & E & Hseg & Htxt).
    rewrite E. simpl in Htxt. rewrite Htxt. eauto.
  - intros rich_print. vm_compute. reflexivity.
Qed.

Lemma transcript_joins_kept_texts_witness :
  exists segs out,
    transcribe_wav_google quiet_print 70000
      (fun w => if fst w =? 0 then Returned (py "hello")
                else if fst w =? 29000 then Returned (py "  ")
                else Returned (py "world"))
      30000 1000 =
    Returns (py "hello world") segs out.
Proof.
  apply (proj1 (proj2 (proj2 transcript_joins_kept_texts)) quiet_print 70000
               (fun w => if fst w =? 0 then Returned (py "hello")
                         else if fst w =? 29000 then Returned (py "  ")
                         else Returned (py "world"))
               30000 1000 [(0, 30000); (29000, 59000); (58000, 70000)]);
    vm_compute; reflexivity.
Defined.

(** C6 as stated fails on a text that is non-empty but all whitespace:
    the one window's text [" "] is non-empty, so the join of the non-empty
    texts is [" "], and the full text is empty, under every [print]. *)
Lemma transcript_of_nonempty_texts_fails :
  chunk_audio 1000 30000 1000 = Some [(0, 1000)] /\
  (forall rich_print,
     transcribe_wav_google rich_print 1000 (fun _ => Returned (py " "))
                           30000 1000 =
     Returns [] [] []) /\
  join (py " ")
       (filter truthy
               (map (fun w : window => window_text (Returned (py " "))) [(0, 1000)]))
    = py " " /\
  py " " <> [].
Proof.
  split; [vm_compute; reflexivity|].
  split; [intros rich_print; vm_compute; reflexivity|].
  split; [vm_compute; reflexivity|discriminate].
Qed.

(** C9.  A window whose text is non-empty but all whitespace changes
    neither result; whether a window's text is included is the test that
    the stripped text is non-empty, which fails exactly on all-whitespace
    texts; an included window adds its text unstripped to the segments and
    to the texts the transcript joins; and the subtitle file shows the text
    of each segment stripped.  All of it under every [print]. *)
Theorem inclusion_by_stripped_text :
  (forall rich_print recognize w rest st text,
     recognize w = Returned text -> text <> [] ->
     forallb isspace text = true ->
     transcribe_loop rich_print recognize (w :: rest) st =
     transcribe_loop rich_print recognize rest st) /\
  (forall rich_print recognize start_ms end_ms rest st text,
     recognize (start_ms, end_ms) = Returned text ->
     transcribe_loop rich_print recognize ((start_ms, end_ms) :: rest) st =
     transcribe_loop rich_print recognize rest
       (if truthy (strip text)
        then mkLocals (srt_segments st ++ [(start_ms, end_ms, text)])
                      (texts st ++ [text]) (printed st)
        else st)) /\
  (forall text, truthy (strip text) = false <-> forallb isspace text = true) /\
  (forall segments k start_ms end_ms text,
     nth_error segments k = Some (start_ms, end_ms, text) ->
     nth_error (srt_lines segments) (4 * k + 2) = Some (strip text)) /\
  (forall rich_print,
     transcribe_wav_google rich_print 1000 (fun _ => Returned (py " hi "))
                           30000 1000 =
     Returns (py " hi ") [(0, 1000, py " hi ")] []) /\
  srt_lines [(0, 1000, py " hi ")] =
    [py "1"; py "00:00:00,000 --> 00:00:01,000"; py "hi"; py ""].
Proof.
  split; [|split; [|split; [|split; [|split]]]].
  - intros rich_print recognize [start_ms end_ms] rest st text E _ Hsp.
    rewrite (transcribe_loop_returned rich_print recognize _ _ _ _ _ E).
    apply kept_false in Hsp. unfold kept in Hsp. now rewrite Hsp.
  - intros rich_print recognize start_ms end_ms rest st text E.
    now apply transcribe_loop_returned.
  - intros text. apply kept_false.
  - intros segments k start_ms end_ms text Hk.
    rewrite srt_lines_entries.
    now rewrite (srt_entries_nth _ 1 k _ 2%nat Hk) by lia.
  - intros rich_print. vm_compute. reflexivity.
  - vm_compute. reflexivity.
Qed.

Lemma inclusion_by_stripped_text_witness :
  transcribe_loop quiet_print (fun _ => Returned (py "  ")) [(0, 1000)]
                  (mkLocals [] [] []) =
  inl (mkLocals [] [] []).
Proof.
  apply (proj1 inclusion_by_stripped_text quiet_print
               (fun _ => Returned (py "  "))
               (0, 1000) [] (mkLocals [] [] []) (py "  "));
    [reflexivity | discriminate | reflexivity].
Defined.

(** C10.  For an input of duration 0, whatever the chunk length and the
    overlap, [chunk_audio] returns the empty list, and
    [transcribe_wav_google] makes no call and returns the empty text and
    the empty list of segments. *)
Theorem empty_audio_no_windows :
  forall chunk_ms overlap_ms rich_print recognize,
  chunk_audio 0 chunk_ms overlap_ms = Some [] /\
  transcribe_wav_google rich_print 0 recognize chunk_ms overlap_ms =
  Returns [] [] [].
Proof. intros c o rich_print recognize. split; reflexivity. Qed.

(* ================================================================== *)
(** ** Windowing: when it returns, how many windows, how much audio *)

Section WindowingMore.

(** Exactly when [chunk_audio] does not return: the input is longer than
    one chunk and the overlap is not smaller than the chunk.  Then no number
    of passes leaves the loop; in every other case the list is returned. *)
Theorem chunk_audio_diverges_iff : forall len chunk_ms overlap_ms,
  (chunk_audio len chunk_ms overlap_ms = None <->
   0 < len /\ chunk_ms < len /\ chunk_ms <= overlap_ms) /\
  ((forall fuel, chunk_loop fuel len chunk_ms overlap_ms [] 0 = None) <->
   chunk_audio len chunk_ms overlap_ms = None).
Proof.
  intros len c o. split; [split|split].
  - intros HN.
    destruct (Z.lt_ge_cases o c) as [Hoc|Hoc].
    { destruct (chunk_loop_terminates len c o Hoc (S (Z.to_nat len)) [] 0)
        as [ws Hws]; [lia|]. unfold chunk_audio in HN. congruence. }
    destruct (Z.lt_ge_cases 0 len) as [Hp|Hp], (Z.lt_ge_cases c len) as [Hl|Hl];
      [lia| | | ]; exfalso; revert HN; unfold chunk_audio; rewrite chunk_loop_S;
      (destruct (Z.ltb_spec 0 len); [|discriminate]);
      (destruct (Z.eqb_spec (Z.min (0 + c) len) len); [discriminate|lia]).
  - intros (Hp & Hl & Hco). apply chunk_loop_stuck; lia.
  - intros H. apply H.
  - apply chunk_audio_None_diverges.
Qed.

(** The windows in closed form, from cursor [i]. *)
Lemma chain_nth len c o i ws : chain len c o i ws ->
  forall k w, nth_error ws k = Some w ->
  w = (i + Z.of_nat k * (c - o), Z.min (i + Z.of_nat k * (c - o) + c) len).
Proof.
  induction 1 as [i Hi Hl | i ws Hi Hch IH]; intros k w Hk.
  - destruct k as [|[|k]]; try discriminate.
    simpl in Hk. injection Hk as <-. f_equal; lia.
  - destruct k as [|k].
    + simpl in Hk. injection Hk as <-. f_equal; lia.
    + simpl in Hk. rewrite (IH k w Hk).
      rewrite Nat2Z.inj_succ, Z.mul_succ_l. f_equal; [lia|f_equal; lia].
Qed.

Lemma chain_length len c o i ws : chain len c o i ws -> o < c ->
  Z.of_nat (length ws) =
  Z.max 0 ((len - i - c + (c - o) - 1) / (c - o)) + 1.
Proof.
  intros Hch Hoc.
  induction Hch as [i Hi Hl | i ws Hi Hch IH].
  - assert (Hq : (len - i - c + (c - o) - 1) / (c - o) < 1)
      by (apply Z.div_lt_upper_bound; lia).
    simpl length. lia.
  - simpl length. rewrite Nat2Z.inj_succ, IH.
    replace (len - i - c + (c - o) - 1)
      with (len - (i + c - o) - c + (c - o) - 1 + 1 * (c - o)) by lia.
    rewrite Z.div_add by lia.
    assert (Hq : 0 <= (len - (i + c - o) - c + (c - o) - 1) / (c - o))
      by (apply Z.div_pos; lia).
    lia.
Qed.

(** For [0 <= overlap_ms < chunk_ms] and a non-empty input, window [k]
    (from 0) starts at [k * (chunk_ms - overlap_ms)] and ends [chunk_ms]
    later or at [len], whichever comes first; and there are
    [ceil((len - chunk_ms) / (chunk_ms - overlap_ms)) + 1] windows (one when
    the input is no longer than a chunk). *)
Theorem chunk_audio_closed_form : forall len chunk_ms overlap_ms,
  0 <= overlap_ms < chunk_ms -> 0 < len ->
  exists ws,
    chunk_audio len chunk_ms overlap_ms = Some ws /\
    Z.of_nat (length ws) =
      Z.max 0 ((len - chunk_ms + (chunk_ms - overlap_ms) - 1)
               / (chunk_ms - overlap_ms)) + 1 /\
    forall k w, nth_error ws k = Some w ->
      w = (Z.of_nat k * (chunk_ms - overlap_ms),
           Z.min (Z.of_nat k * (chunk_ms - overlap_ms) + chunk_ms) len).
Proof.
  intros len c o Hoc Hlen.
  destruct (chunk_audio_chain len c o Hoc Hlen) as (ws & Hws & Hch).
  exists ws. split; [exact Hws|]. split.
  - rewrite (chain_length _ _ _ _ _ Hch) by lia. do 3 f_equal. lia.
  - intros k w Hk. rewrite (chain_nth _ _ _ _ _ Hch k w Hk). reflexivity.
Qed.

Lemma chunk_audio_closed_form_witness :
  exists ws,
    chunk_audio 90000 30000 1000 = Some ws /\
    Z.of_nat (length ws) = 4 /\
    nth_error ws 3 = Some (87000, 90000).
Proof.
  destruct (chunk_audio_closed_form 90000 30000 1000) as (ws & Hws & Hn & Hk);
    [lia|lia|].
  exists ws. split; [exact Hws|]. split; [exact Hn|].
  revert Hws. vm_compute. intros [= <-]. reflexivity.
Defined.

Lemma chain_total_ms len c o i ws : chain len c o i ws ->
  total_ms ws = (len - i) + (Z.of_nat (length ws) - 1) * o.
Proof.
  induction 1 as [i Hi Hl | i ws Hi Hch IH].
  - simpl. lia.
  - change (total_ms ((i, i + c) :: ws)) with ((i + c - i) + total_ms ws).
    rewrite IH. simpl length. rewrite Nat2Z.inj_succ. lia.
Qed.

(** For [0 <= overlap_ms < chunk_ms] and a non-empty input, the windows
    together hold the whole input plus [overlap_ms] for every window after
    the first; with no overlap they hold the input exactly once. *)
Theorem chunk_audio_total_ms : forall len chunk_ms overlap_ms,
  0 <= overlap_ms < chunk_ms -> 0 < len ->
  exists ws,
    chunk_audio len chunk_ms overlap_ms = Some ws /\
    total_ms ws = len + (Z.of_nat (length ws) - 1) * overlap_ms.
Proof.
  intros len c o Hoc Hlen.
  destruct (chunk_audio_chain len c o Hoc Hlen) as (ws & Hws & Hch).
  exists ws. split; [exact Hws|].
  rewrite (chain_total_ms _ _ _ _ _ Hch). lia.
Qed.

Lemma chunk_audio_total_ms_witness :
  exists ws, chunk_audio 90000 30000 1000 = Some ws /\ total_ms ws = 93000.
Proof.
  destruct (chunk_audio_total_ms 90000 30000 1000) as (ws & Hws & Ht); [lia|lia|].
  exists ws. split; [exact Hws|].
  revert Hws. vm_compute. intros [= <-]. reflexivity.
Defined.

(** No window starts left of the cursor it was made from. *)
Lemma chunk_loop_starts len c o : o < c ->
  forall fuel i ws, chunk_loop fuel len c o [] i = Some ws ->
  Forall (fun w : window => i <= fst w) ws.
Proof.
  intros Hoc. induction fuel as [|fuel IH]; intros i ws H; [discriminate|].
  rewrite chunk_loop_S in H.
  destruct (Z.ltb_spec i len); [|injection H as <-; constructor].
  destruct (Z.eqb_spec (Z.min (i + c) len) len) as [E|E].
  - injection H as <-. repeat constructor. simpl. lia.
  - destruct (chunk_loop fuel len c o [] (Z.min (i + c) len - o)) as [ws'|] eqn:E';
      [|discriminate].
    simpl in H. injection H as <-. constructor; [simpl; lia|].
    eapply Forall_impl; [|apply (IH _ _ E')]. simpl. intros w. lia.
Qed.

(** A negative overlap leaves gaps: with [overlap_ms < 0] and an input
    longer than one chunk, [chunk_audio] returns, and the [-overlap_ms]
    milliseconds that follow the first window are in no window. *)
Theorem chunk_audio_negative_overlap_gap : forall len chunk_ms overlap_ms,
  overlap_ms < 0 -> 0 < chunk_ms < len ->
  exists ws,
    chunk_audio len chunk_ms overlap_ms = Some ws /\
    forall t, chunk_ms <= t < chunk_ms - overlap_ms ->
              ~ Exists (fun w : window => fst w <= t < snd w) ws.
Proof.
  intros len c o Ho Hc.
  destruct (chunk_loop_terminates len c o ltac:(lia) (S (Z.to_nat len)) [] 0)
    as [ws Hws]; [lia|].
  exists ws. split; [exact Hws|].
  intros t Ht Hex. rewrite chunk_loop_S in Hws.
  destruct (Z.ltb_spec 0 len); [|lia].
  destruct (Z.eqb_spec (Z.min (0 + c) len) len) as [E|E]; [lia|].
  destruct (chunk_loop (Z.to_nat len) len c o [] (Z.min (0 + c) len - o))
    as [ws'|] eqn:E'; [|discriminate].
  simpl in Hws. injection Hws as <-.
  assert (HF := chunk_loop_starts len c o ltac:(lia) _ _ _ E').
  inversion Hex as [w l Hw | w l Hl]; subst.
  - simpl in Hw. lia.
  - rewrite Forall_forall in HF. apply Exists_exists in Hl.
    destruct Hl as (w' & Hin & Hw'). specialize (HF w' Hin). lia.
Qed.

Lemma chunk_audio_negative_overlap_gap_witness :
  chunk_audio 100 30 (-10) = Some [(0, 30); (40, 70); (80, 100)] /\
  ~ Exists (fun w : window => fst w <= 35 < snd w) [(0, 30); (40, 70); (80, 100)].
Proof.
  destruct (chunk_audio_negative_overlap_gap 100 30 (-10)) as (ws & Hws & Hg);
    [lia|lia|].
  assert (E : ws = [(0, 30); (40, 70); (80, 100)])
    by (revert Hws; vm_compute; intros [= <-]; reflexivity).
  subst ws. split; [exact Hws|]. apply Hg. lia.
Defined.

End WindowingMore.

(* ================================================================== *)
(** ** Timestamps: reading them back, and negative times *)

Section TimestampsMore.

Lemma app_same_length_l {A} : forall (a1 a2 x y : list A),
  length a1 = length a2 -> a1 ++ x = a2 ++ y -> a1 = a2 /\ x = y.
Proof.
  induction a1 as [|c a1 IH]; intros [|d a2] x y Hl E; try discriminate.
  - now split.
  - simpl in Hl, E. injection E as -> E. injection Hl as Hl.
    destruct (IH a2 x y Hl E) as [-> ->]. now split.
Qed.

Lemma app_same_length_r {A} (a1 a2 x y : list A) :
  length x = length y -> a1 ++ x = a2 ++ y -> a1 = a2 /\ x = y.
Proof.
  intros Hl E. apply (f_equal (@rev A)) in E. rewrite !rev_app_distr in E.
  apply app_same_length_l in E; [|now rewrite !length_rev].
  destruct E as [E1 E2].
  apply (f_equal (@rev A)) in E1, E2. rewrite !rev_involutive in E1, E2.
  now split.
Qed.

(** The four fields, with the tuples of [divmod] taken apart. *)
Lemma ms_to_srt_time_fields ms :
  ms_to_srt_time ms =
  format_0d 2 (ms / 1000 / 3600) ++ py ":"
    ++ format_0d 2 (ms / 1000 mod 3600 / 60) ++ py ":"
    ++ format_0d 2 (ms / 1000 mod 3600 mod 60) ++ py ","
    ++ format_0d 3 (ms mod 1000).
Proof. reflexivity. Qed.

Lemma numeral_inj w v1 v2 s : numeral w v1 s -> numeral w v2 s -> v1 = v2.
Proof. intros (_ & _ & <-) (_ & _ & <-). reflexivity. Qed.

(** The minutes, seconds and milliseconds fields of any time, negative or
    not, are numerals of two, two and three digits. *)
Lemma ms_to_srt_time_low_fields ms :
  numeral 2 (ms / 1000 mod 3600 / 60) (format_0d 2 (ms / 1000 mod 3600 / 60)) /\
  numeral 2 (ms / 1000 mod 3600 mod 60) (format_0d 2 (ms / 1000 mod 3600 mod 60)) /\
  numeral 3 (ms mod 1000) (format_0d 3 (ms mod 1000)).
Proof.
  repeat split; apply format_0d_numeral;
    (change (10 ^ Z.of_nat 2) with 100 || change (10 ^ Z.of_nat 3) with 1000);
    dlia.
Qed.

(** Distinct non-negative times have distinct timestamps: the timestamp
    can be read back. *)
Theorem ms_to_srt_time_injective : forall a b,
  0 <= a -> 0 <= b -> ms_to_srt_time a = ms_to_srt_time b -> a = b.
Proof.
  intros a b Ha Hb E. rewrite !ms_to_srt_time_fields in E.
  destruct (ms_to_srt_time_low_fields a) as (Ma & Sa & Ra).
  destruct (ms_to_srt_time_low_fields b) as (Mb & Sb & Rb).
  assert (Hha : 0 <= a / 1000 / 3600) by dlia.
  assert (Hhb : 0 <= b / 1000 / 3600) by dlia.
  destruct (format_0d_padded 1 _ Hha) as (_ & _ & Va & _).
  destruct (format_0d_padded 1 _ Hhb) as (_ & _ & Vb & _).
  change (py ":") with [58%N] in E. change (py ",") with [44%N] in E.
  apply app_same_length_r in E.
  2:{ destruct Ma as (La1 & _), Sa as (La2 & _), Ra as (La3 & _).
      destruct Mb as (Lb1 & _), Sb as (Lb2 & _), Rb as (Lb3 & _).
      rewrite !length_app. cbn [length]. slia. }
  destruct E as [Eh E]. cbn [app] in E. injection E as E.
  apply app_same_length_l in E;
    [|destruct Ma as (La & _), Mb as (Lb & _); slia].
  destruct E as [Em E]. cbn [app] in E. injection E as E.
  apply app_same_length_l in E;
    [|destruct Sa as (La & _), Sb as (Lb & _); slia].
  destruct E as [Es E]. cbn [app] in E. injection E as Er.
  rewrite Eh in Va. rewrite Em in Ma. rewrite Es in Sa. rewrite Er in Ra.
  assert (H1 := numeral_inj _ _ _ _ Ma Mb).
  assert (H2 := numeral_inj _ _ _ _ Sa Sb).
  assert (H3 := numeral_inj _ _ _ _ Ra Rb).
  assert (H4 : a / 1000 / 3600 = b / 1000 / 3600) by congruence.
  dlia.
Qed.

Lemma ms_to_srt_time_injective_witness :
  0 <= 59999 /\ ms_to_srt_time 59999 <> ms_to_srt_time 60000.
Proof.
  split; [lia|]. intros E.
  apply (ms_to_srt_time_injective 59999 60000) in E; lia.
Defined.

Lemma format_0d_negative w n : n < 0 ->
  format_0d (S (S w)) n = 45%N :: zfill (S w) (digits (- n)).
Proof.
  intros Hn. unfold format_0d. destruct (Z.ltb_spec n 0); [|lia].
  reflexivity.
Qed.

(** A negative time is floored, not mirrored: the hours field carries the
    sign and is not padded (the sign takes one of its two places), and the
    minutes, seconds and milliseconds are the non-negative remainders, so
    [-1] is printed [-1:59:59,999]. *)
Theorem ms_to_srt_time_negative : forall ms, ms < 0 ->
  exists h m s r hh mm ss mmm,
    ms = ((h * 60 + m) * 60 + s) * 1000 + r /\
    h < 0 /\ 0 <= m < 60 /\ 0 <= s < 60 /\ 0 <= r < 1000 /\
    ms_to_srt_time ms =
      py "-" ++ hh ++ py ":" ++ mm ++ py ":" ++ ss ++ py "," ++ mmm /\
    hh = digits (- h) /\ decimal_value hh = - h /\
    hd_error hh <> Some 48%N /\
    numeral 2 m mm /\ numeral 2 s ss /\ numeral 3 r mmm.
Proof.
  intros ms Hms.
  exists (ms / 1000 / 3600), (ms / 1000 mod 3600 / 60),
    (ms / 1000 mod 3600 mod 60), (ms mod 1000).
  exists (digits (- (ms / 1000 / 3600))),
    (format_0d 2 (ms / 1000 mod 3600 / 60)),
    (format_0d 2 (ms / 1000 mod 3600 mod 60)),
    (format_0d 3 (ms mod 1000)).
  assert (Hh : ms / 1000 / 3600 < 0) by dlia.
  destruct (ms_to_srt_time_low_fields ms) as (Nm & Ns & Nr).
  split; [dlia|]. split; [exact Hh|].
  split; [dlia|]. split; [dlia|]. split; [dlia|].
  split.
  - rewrite ms_to_srt_time_fields, format_0d_negative by exact Hh.
    rewrite zfill_long; [reflexivity|].
    destruct (digits_head (- (ms / 1000 / 3600)) ltac:(lia)) as (c & t & E & _).
    rewrite E. simpl. lia.
  - split; [reflexivity|]. split; [apply digits_value; lia|]. split.
    + destruct (digits_head (- (ms / 1000 / 3600)) ltac:(lia)) as (c & t & E & Hc).
      rewrite E. simpl. congruence.
    + repeat split; first [apply Nm | apply Ns | apply Nr].
Qed.

Lemma ms_to_srt_time_negative_witness :
  ms_to_srt_time (-1) = py "-1:59:59,999".
Proof.
  destruct (ms_to_srt_time_negative (-1) ltac:(lia))
    as (h & m & s & r & hh & mm & ss & mmm & E & _).
  vm_compute. reflexivity.
Defined.

End TimestampsMore.

(* ================================================================== *)
(** ** The subtitle file as text *)

Section SrtMore.

Lemma srt_entries_app : forall a b idx,
  srt_entries idx (a ++ b) =
  srt_entries idx a ++ srt_entries (idx + Z.of_nat (length a)) b.
Proof.
  induction a as [|seg a IH]; intros b idx.
  - simpl. now rewrite Z.add_0_r.
  - cbn [app srt_entries length]. rewrite IH, <- app_assoc.
    do 3 f_equal. lia.
Qed.

Lemma join_app sep : forall l1 l2, l1 <> [] -> l2 <> [] ->
  join sep (l1 ++ l2) = join sep l1 ++ sep ++ join sep l2.
Proof.
  induction l1 as [|x l1 IH]; intros l2 H1 H2; [congruence|].
  destruct l1 as [|y l1].
  - destruct l2 as [|z l2]; [congruence|]. reflexivity.
  - change (join sep ((x :: y :: l1) ++ l2))
      with (x ++ sep ++ join sep ((y :: l1) ++ l2)).
    rewrite IH by (assumption || discriminate).
    change (join sep (x :: y :: l1)) with (x ++ sep ++ join sep (y :: l1)).
    now rewrite <- !app_assoc.
Qed.

(** No segment, empty file; and one more segment appends to the file, after
    a separating line feed if something precedes, its number, its time
    range and its stripped text, each followed by a line feed.  What was
    written for the earlier segments is unchanged, entries are separated by
    one empty line, and the file ends in a single line feed. *)
Theorem write_srt_snoc :
  write_srt [] = [] /\
  forall segments start end_ text,
    write_srt (segments ++ [(start, end_, text)]) =
    (match segments with [] => [] | _ :: _ => write_srt segments ++ LF end)
      ++ str_int (Z.of_nat (length segments) + 1) ++ LF
      ++ ms_to_srt_time start ++ py " --> " ++ ms_to_srt_time end_ ++ LF
      ++ strip text ++ LF.
Proof.
  split; [reflexivity|].
  intros segments start end_ text. unfold write_srt.
  rewrite !srt_lines_entries, srt_entries_app.
  rewrite (Z.add_comm 1 (Z.of_nat _)).
  destruct segments as [|seg segments].
  - cbn [srt_entries srt_entry app join length].
    rewrite !app_nil_r, <- !app_assoc. reflexivity.
  - rewrite join_app.
    + cbn [srt_entries srt_entry app join].
      rewrite !app_nil_r, <- !app_assoc. reflexivity.
    + destruct seg as [[s e] t]. discriminate.
    + discriminate.
Qed.

(** *** What stripping removes *)

Lemma lstrip_split : forall s,
  exists p, s = p ++ lstrip s /\ forallb isspace p = true.
Proof.
  induction s as [|c s (p & E & Hp)]; [exists []; split; reflexivity|].
  simpl. destruct (isspace c) eqn:Ec.
  - exists (c :: p). simpl. rewrite Ec, Hp. split; [now rewrite <- E|reflexivity].
  - exists []. split; reflexivity.
Qed.

Lemma lstrip_head : forall s c t, lstrip s = c :: t -> isspace c = false.
Proof.
  induction s as [|d s IH]; intros c t E; [discriminate|].
  simpl in E. destruct (isspace d) eqn:Ed; [eauto|].
  injection E as <- _. exact Ed.
Qed.

Lemma rstrip_split s :
  exists q, s = rstrip s ++ q /\ forallb isspace q = true.
Proof.
  unfold rstrip. destruct (lstrip_split (rev s)) as (p & E & Hp).
  exists (rev p). split; [|now rewrite forallb_rev].
  rewrite <- rev_app_distr, <- E. now rewrite rev_involutive.
Qed.

Lemma rstrip_last s t c : rstrip s = t ++ [c] -> isspace c = false.
Proof.
  unfold rstrip. intros E. apply (f_equal (@rev char)) in E.
  rewrite rev_involutive, rev_app_distr in E. simpl in E.
  eapply lstrip_head. exact E.
Qed.

(** [text.strip()] is [text] without a run of whitespace at each end, and
    neither starts nor ends with whitespace. *)
Lemma strip_spec text :
  exists p q,
    text = p ++ strip text ++ q /\
    forallb isspace p = true /\ forallb isspace q = true /\
    (forall c t, strip text = c :: t -> isspace c = false) /\
    (forall t c, strip text = t ++ [c] -> isspace c = false).
Proof.
  destruct (lstrip_split text) as (p & Ep & Hp).
  destruct (rstrip_split (lstrip text)) as (q & Eq & Hq).
  exists p, q. unfold strip. split; [now rewrite <- Eq|].
  split; [exact Hp|]. split; [exact Hq|]. split.
  - intros c t E. rewrite E in Eq. eapply lstrip_head. exact Eq.
  - intros t c E. eapply rstrip_last. exact E.
Qed.

(** The text line of a subtitle entry is the segment's text without the
    whitespace at its two ends, and only that: it neither starts nor ends
    with a whitespace character, and what lies inside is untouched. *)
Theorem write_srt_text_line : forall segments k start end_ text,
  nth_error segments k = Some (start, end_, text) ->
  exists p x q,
    nth_error (srt_lines segments) (4 * k + 2) = Some x /\
    text = p ++ x ++ q /\
    forallb isspace p = true /\ forallb isspace q = true /\
    (forall c t, x = c :: t -> isspace c = false) /\
    (forall t c, x = t ++ [c] -> isspace c = false).
Proof.
  intros segments k start end_ text Hk.
  destruct (strip_spec text) as (p & q & H).
  exists p, (strip text), q. split; [|exact H].
  rewrite srt_lines_entries.
  now rewrite (srt_entries_nth _ 1 k _ 2%nat Hk) by lia.
Qed.

Lemma write_srt_text_line_witness :
  exists p x q,
    nth_error (srt_lines [(0, 1000, py "  hello world ")]) 2 = Some x /\
    py "  hello world " = p ++ x ++ q /\
    forallb isspace p = true /\ forallb isspace q = true.
Proof.
  destruct (write_srt_text_line [(0, 1000, py "  hello world ")] 0 0 1000
              (py "  hello world ") eq_refl)
    as (p & x & q & H1 & H2 & H3 & H4 & _).
  exists p, x, q. repeat split; assumption.
Defined.

End SrtMore.

(* ================================================================== *)
(** ** The recognition loop: exceptions, the console, the two results *)

Section LoopMore.

Variable rich_print : printer.
Variable recognize : window -> outcome.

(** The first pass that does not go on leaves the loop with its
    exception. *)
Lemma transcribe_loop_raises : forall ws1 w ws2 st e,
  forallb (fun w => passes rich_print (recognize w)) ws1 = true ->
  leaves_with rich_print (recognize w) = Some e ->
  transcribe_loop rich_print recognize (ws1 ++ w :: ws2) st = inr e.
Proof.
  intros ws1 w ws2 st e Hs Hw.
  destruct (transcribe_loop_survives rich_print recognize ws1 st Hs)
    as (st1 & E1 & _).
  rewrite (transcribe_loop_app rich_print recognize _ _ _ _ E1).
  destruct w as [start_ms end_ms]. cbn [transcribe_loop].
  unfold leaves_with in Hw.
  destruct (recognize (start_ms, end_ms)) as [text| |m|m];
    cbn [recognized_text]; try discriminate.
  - now rewrite Hw.
  - now injection Hw as ->.
Qed.


(** The arguments of the calls of [print] a returning loop has made. *)
Lemma transcribe_loop_printed : forall windows st st',
  transcribe_loop rich_print recognize windows st = inl st' ->
  printed st' =
  printed st ++ flat_map (fun w => printed_for (recognize w)) windows.
Proof.
  induction windows as [|[start_ms end_ms] windows IH]; intros st st' E.
  - simpl in E. injection E as <-. simpl. now rewrite app_nil_r.
  - cbn [transcribe_loop flat_map] in *.
    destruct (recognize (start_ms, end_ms)) as [text| |e|e];
      cbn [recognized_text printed_for] in *; try discriminate.
    + destruct (truthy (strip text));
        apply IH in E; simpl in E; rewrite E, <- ?app_assoc; reflexivity.
    + apply IH in E; simpl in E; rewrite E, <- ?app_assoc; reflexivity.
    + destruct (rich_print (request_error_msg e)); [discriminate|].
      apply IH in E; simpl in E; rewrite E, <- ?app_assoc; reflexivity.
Qed.

Lemma passes_printed : forall windows,
  forallb (fun w => passes rich_print (recognize w)) windows = true ->
  Forall (fun m => rich_print m = None)
         (flat_map (fun w => printed_for (recognize w)) windows).
Proof.
  induction windows as [|w windows IH]; intros Hs; [constructor|].
  cbn [forallb] in Hs. apply andb_prop in Hs. destruct Hs as [Hw Hs].
  cbn [flat_map]. apply Forall_app. split; [|now apply IH].
  unfold passes, leaves_with in Hw.
  destruct (recognize w) as [text| |e|e]; cbn [printed_for];
    try constructor; [|constructor].
  destruct (rich_print (request_error_msg e)); [discriminate|reflexivity].
Qed.

Lemma kept_segments_texts windows :
  map snd (kept_segments recognize windows) = kept_texts recognize windows.
Proof.
  unfold kept_segments, kept_texts.
  induction windows as [|w windows IH]; [reflexivity|].
  cbn [filter map]. destruct (kept (window_text (recognize w)));
    cbn [map snd]; now rewrite IH.
Qed.

Lemma kept_segments_windows windows :
  map fst (kept_segments recognize windows) =
  filter (fun w => kept (window_text (recognize w))) windows.
Proof.
  unfold kept_segments. rewrite map_map.
  rewrite <- (map_id (filter _ windows)) at 2.
  apply map_ext. intros [s e]. reflexivity.
Qed.

Lemma kept_segments_kept windows :
  Forall (fun seg : segment => truthy (strip (snd seg)) = true)
         (kept_segments recognize windows).
Proof.
  unfold kept_segments. apply Forall_forall. intros seg Hin.
  apply in_map_iff in Hin. destruct Hin as (w & <- & Hw).
  apply filter_In in Hw. exact (proj2 Hw).
Qed.

Lemma kept_segments_In windows seg :
  In seg (kept_segments recognize windows) -> In (fst seg) windows.
Proof.
  unfold kept_segments. intros Hin. apply in_map_iff in Hin.
  destruct Hin as ([s e] & <- & Hw). apply filter_In in Hw. exact (proj1 Hw).
Qed.

Lemma kept_segments_sorted (R : window -> window -> Prop) windows :
  StronglySorted R windows ->
  StronglySorted (fun s1 s2 : segment => R (fst s1) (fst s2))
                 (kept_segments recognize windows).
Proof.
  induction 1 as [|w windows Hs IH HF]; [constructor|].
  unfold kept_segments in *. cbn [filter].
  destruct (kept (window_text (recognize w))); [|exact IH].
  cbn [map]. constructor; [exact IH|].
  apply Forall_forall. intros seg Hin.
  apply (kept_segments_In windows) in Hin.
  rewrite Forall_forall in HF. destruct w as [s e]. exact (HF _ Hin).
Qed.

Lemma kept_nothing windows :
  Forall (fun w => forallb isspace (window_text (recognize w)) = true) windows ->
  kept_segments recognize windows = [] /\ kept_texts recognize windows = [].
Proof.
  unfold kept_segments, kept_texts.
  induction 1 as [|w windows Hw HF [IH1 IH2]]; [split; reflexivity|].
  apply kept_false in Hw. cbn [filter map]. rewrite Hw. split; assumption.
Qed.

(** What a returning call has computed. *)
Lemma transcribe_returns_inv len c o full segs out :
  transcribe_wav_google rich_print len recognize c o = Returns full segs out ->
  exists windows,
    chunk_audio len c o = Some windows /\
    forallb (fun w => passes rich_print (recognize w)) windows = true /\
    segs = kept_segments recognize windows /\
    full = join (py " ") (kept_texts recognize windows) /\
    out = flat_map (fun w => printed_for (recognize w)) windows.
Proof.
  unfold transcribe_wav_google.
  destruct (chunk_audio len c o) as [windows|]; [|discriminate].
  destruct (transcribe_loop rich_print recognize windows (mkLocals [] [] []))
    as [st|e] eqn:E; [|discriminate].
  intros [= <- <- <-].
  assert (Hs := transcribe_loop_inl rich_print recognize _ _ _ E).
  assert (Hp := transcribe_loop_printed _ _ _ E).
  destruct (transcribe_loop_survives rich_print recognize windows
              (mkLocals [] [] []) Hs) as (st' & E' & Hseg & Htxt).
  rewrite E in E'. injection E' as <-.
  cbn [srt_segments texts printed app] in Hseg, Htxt, Hp.
  exists windows. rewrite Hseg, Htxt, Hp. repeat split. exact Hs.
Qed.

End LoopMore.

(** The first pass that leaves with an exception ends
    [transcribe_wav_google]: when the work on some window raises something
    other than the two caught errors, or the [print] in the handler of its
    [RequestError] raises, and every earlier pass went on, the function
    raises that exception; the windows after it do not matter, and nothing
    collected before it is returned. *)
Theorem transcribe_raises_at_first_uncaught :
  forall rich_print len recognize chunk_ms overlap_ms ws1 w ws2 e,
  chunk_audio len chunk_ms overlap_ms = Some (ws1 ++ w :: ws2) ->
  forallb (fun w => passes rich_print (recognize w)) ws1 = true ->
  (recognize w = OtherError e \/
   exists m, recognize w = RequestError m /\
             rich_print (request_error_msg m) = Some e) ->
  transcribe_wav_google rich_print len recognize chunk_ms overlap_ms = Raises e.
Proof.
  intros rich_print len recognize c o ws1 w ws2 e Hw Hs He.
  unfold transcribe_wav_google. rewrite Hw.
  rewrite (transcribe_loop_raises rich_print recognize ws1 w ws2 _ e Hs);
    [reflexivity|].
  destruct He as [-> | (m & -> & Hp)]; [reflexivity|exact Hp].
Qed.

Lemma transcribe_raises_at_first_uncaught_witness :
  transcribe_wav_google quiet_print 70000
    (fun w => if fst w =? 0 then RequestError (py "quota")
              else if fst w =? 29000 then OtherError (py "boom")
              else OtherError (py "later"))
    30000 1000 = Raises (py "boom").
Proof.
  apply (transcribe_raises_at_first_uncaught quiet_print 70000 _ 30000 1000
           [(0, 30000)] (29000, 59000) [(58000, 70000)]);
    [vm_compute; reflexivity | vm_compute; reflexivity | left; reflexivity].
Defined.

(** When [transcribe_wav_google] returns, the calls of [print] it has made
    are one for each window whose call raised [RequestError], in window
    order, with the fixed prefix followed by the error's message as
    argument, and every one of them returned; for a window with
    [UnknownValueError] or with a text [print] is not called.  (What [print]
    shows for an argument is not part of this.) *)
Theorem transcribe_prints_request_errors :
  forall rich_print len recognize chunk_ms overlap_ms full segs out,
  transcribe_wav_google rich_print len recognize chunk_ms overlap_ms =
  Returns full segs out ->
  exists windows,
    chunk_audio len chunk_ms overlap_ms = Some windows /\
    out = flat_map (fun w => printed_for (recognize w)) windows /\
    Forall (fun m => rich_print m = None) out /\
    length out =
    length (filter (fun w => match recognize w with
                             | RequestError _ => true
                             | _ => false
                             end) windows).
Proof.
  intros rich_print len recognize c o full segs out Hr.
  destruct (transcribe_returns_inv _ _ _ _ _ _ _ _ Hr)
    as (windows & Hw & Hs & _ & _ & ->).
  exists windows. split; [exact Hw|]. split; [reflexivity|].
  split; [now apply passes_printed|].
  clear. induction windows as [|w windows IH]; [reflexivity|].
  cbn [flat_map filter]. rewrite length_app.
  destruct (recognize w); cbn [printed_for length]; rewrite IH; reflexivity.
Qed.

Lemma transcribe_prints_request_errors_witness :
  exists windows,
    chunk_audio 70000 30000 1000 = Some windows /\
    [request_error_msg (py "quota")] =
    flat_map (fun w => printed_for
                (if fst w =? 0 then UnknownValueError
                 else if fst w =? 29000 then RequestError (py "quota")
                 else Returned (py "world"))) windows.
Proof.
  destruct (transcribe_prints_request_errors quiet_print 70000
              (fun w => if fst w =? 0 then UnknownValueError
                        else if fst w =? 29000 then RequestError (py "quota")
                        else Returned (py "world"))
              30000 1000 (py "world") [(58000, 70000, py "world")]
              [request_error_msg (py "quota")])
    as (windows & Hw & Hout & _); [vm_compute; reflexivity|].
  exists windows. split; assumption.
Defined.

(** The two results of [transcribe_wav_google] agree: the full text is the
    texts of the returned segments joined by single spaces; every returned
    segment has a text that is non-empty after stripping; and the time
    ranges of the segments are, in order, those windows of [chunk_audio]
    whose text passed that test, so there are no more segments than
    windows. *)
Theorem transcribe_results_agree :
  forall rich_print len recognize chunk_ms overlap_ms full segs out,
  transcribe_wav_google rich_print len recognize chunk_ms overlap_ms =
  Returns full segs out ->
  full = join (py " ") (map snd segs) /\
  Forall (fun seg : segment => truthy (strip (snd seg)) = true) segs /\
  exists windows,
    chunk_audio len chunk_ms overlap_ms = Some windows /\
    map fst segs =
      filter (fun w => truthy (strip (window_text (recognize w)))) windows /\
    (length segs <= length windows)%nat.
Proof.
  intros rich_print len recognize c o full segs out Hr.
  destruct (transcribe_returns_inv _ _ _ _ _ _ _ _ Hr)
    as (windows & Hw & _ & -> & -> & _).
  split; [now rewrite kept_segments_texts|].
  split; [apply kept_segments_kept|].
  exists windows. split; [exact Hw|].
  split; [apply kept_segments_windows|].
  apply Nat.le_trans with (length (map fst (kept_segments recognize windows))).
  - rewrite length_map. apply Nat.le_refl.
  - rewrite kept_segments_windows. apply filter_length_le.
Qed.

Lemma transcribe_results_agree_witness :
  py "hello world" =
  join (py " ") (map snd [(0, 30000, py "hello"); (29000, 50000, py "world")]).
Proof.
  apply (transcribe_results_agree quiet_print 50000
           (fun w => if fst w =? 0 then Returned (py "hello")
                     else Returned (py "world"))
           30000 1000 (py "hello world")
           [(0, 30000, py "hello"); (29000, 50000, py "world")] []).
  vm_compute. reflexivity.
Defined.

(* ================================================================== *)
(** ** Segments in time order, and [transcribe_file] *)

Section Pipeline.

Lemma chain_sorted len c o : o < c -> forall i ws, chain len c o i ws ->
  StronglySorted (fun w1 w2 : window => fst w1 < fst w2) ws /\
  Forall (fun w : window => i <= fst w) ws.
Proof.
  intros Hoc. induction 1 as [i Hi Hl | i ws Hi Hch [IH1 IH2]].
  - split; repeat constructor. simpl. lia.
  - split.
    + constructor; [exact IH1|].
      eapply Forall_impl; [|exact IH2]. simpl. intros w. lia.
    + constructor; [simpl; lia|].
      eapply Forall_impl; [|exact IH2]. simpl. intros w. lia.
Qed.

Lemma chunk_audio_empty len c o : len <= 0 -> chunk_audio len c o = Some [].
Proof.
  intros Hlen. unfold chunk_audio. rewrite chunk_loop_S.
  destruct (Z.ltb_spec 0 len); [lia|reflexivity].
Qed.

(** With [0 <= overlap_ms < chunk_ms], the segments
    [transcribe_wav_google] returns are in time order, each starting later
    than the one before, and every one has
    [0 <= start_ms < end_ms <= len]: the subtitle entries made of them have
    increasing, well-formed time ranges. *)
Theorem transcribe_segments_ordered :
  forall rich_print len recognize chunk_ms overlap_ms full segs out,
  0 <= overlap_ms < chunk_ms ->
  transcribe_wav_google rich_print len recognize chunk_ms overlap_ms =
  Returns full segs out ->
  StronglySorted (fun s1 s2 : segment => fst (fst s1) < fst (fst s2)) segs /\
  Forall (fun seg : segment =>
            0 <= fst (fst seg) /\ fst (fst seg) < snd (fst seg) /\
            snd (fst seg) <= len) segs.
Proof.
  intros rich_print len recognize c o full segs out Hoc Hr.
  destruct (transcribe_returns_inv _ _ _ _ _ _ _ _ Hr)
    as (windows & Hw & _ & -> & _).
  destruct (Z.lt_ge_cases 0 len) as [Hlen|Hlen].
  - destruct (chunk_audio_chain len c o Hoc Hlen) as (ws & Hws & Hch).
    rewrite Hw in Hws. injection Hws as <-.
    destruct (chain_sorted len c o ltac:(lia) 0 windows Hch) as [Hs _].
    split; [apply (kept_segments_sorted recognize _ windows Hs)|].
    assert (HB := chain_bounds len c o ltac:(lia) ltac:(lia) 0 windows Hch ltac:(lia)).
    rewrite Forall_forall in HB. apply Forall_forall. intros seg Hin.
    apply kept_segments_In in Hin. specialize (HB _ Hin). lia.
  - rewrite chunk_audio_empty in Hw by lia. injection Hw as <-.
    split; constructor.
Qed.

Lemma transcribe_segments_ordered_witness :
  StronglySorted (fun s1 s2 : segment => fst (fst s1) < fst (fst s2))
                 [(0, 30000, py "hello"); (29000, 50000, py "world")].
Proof.
  apply (transcribe_segments_ordered quiet_print 50000
           (fun w => if fst w =? 0 then Returned (py "hello")
                     else Returned (py "world"))
           30000 1000 (py "hello world")
           [(0, 30000, py "hello"); (29000, 50000, py "world")] []);
    [lia | vm_compute; reflexivity].
Defined.


(** A call of [transcribe_file] whose four effects all return. *)
Lemma transcribe_file_wrote rich_print write_text wav_path len recognize
      text segs out :
  rich_print (transcribing_msg wav_path) = None ->
  transcribe_wav_google rich_print len recognize
                        default_chunk_ms default_overlap_ms =
  Returns text segs out ->
  write_text (py "transcript.txt") text = None ->
  write_text (py "subtitles.srt") (write_srt segs) = None ->
  rich_print saved_msg = None ->
  transcribe_file rich_print write_text wav_path len recognize =
  Wrote (mkFiles text (write_srt segs))
        ([transcribing_msg wav_path] ++ out ++ [saved_msg]).
Proof.
  intros H1 H2 H3 H4 H5. unfold transcribe_file.
  rewrite H1, H2, H3, H4, H5. reflexivity.
Qed.


(** A recording in which every window comes back with nothing but
    whitespace, or with one of the two caught exceptions (the [print] of
    the handler returning), gives two empty files, when the two prints and
    the two writes of [transcribe_file] return. *)
Theorem transcribe_file_silence :
  forall rich_print write_text wav_path len recognize windows,
  chunk_audio len default_chunk_ms default_overlap_ms = Some windows ->
  Forall (fun w => passes rich_print (recognize w) = true /\
                   forallb isspace (window_text (recognize w)) = true) windows ->
  rich_print (transcribing_msg wav_path) = None ->
  write_text (py "transcript.txt") [] = None ->
  write_text (py "subtitles.srt") [] = None ->
  rich_print saved_msg = None ->
  exists out,
    transcribe_file rich_print write_text wav_path len recognize =
    Wrote (mkFiles [] []) out.
Proof.
  intros rich_print write_text wav_path len recognize windows Hw HF P0 W1 W2 P1.
  assert (Hs : forallb (fun w => passes rich_print (recognize w)) windows = true).
  { apply forallb_forall. rewrite Forall_forall in HF.
    intros w Hin. exact (proj1 (HF w Hin)). }
  destruct (kept_nothing recognize windows) as [K1 K2].
  { eapply Forall_impl; [|exact HF]. simpl. tauto. }
  assert (Hr : exists out,
             transcribe_wav_google rich_print len recognize
                                   default_chunk_ms default_overlap_ms =
             Returns [] [] out).
  { unfold transcribe_wav_google. rewrite Hw.
    destruct (transcribe_loop_survives rich_print recognize windows
                (mkLocals [] [] []) Hs) as (st' & E & Hseg & Htxt).
    rewrite E. cbn [srt_segments texts app] in Hseg, Htxt.
    rewrite Hseg, Htxt, K1, K2. eauto. }
  destruct Hr as [out Hr]. eexists.
  apply (transcribe_file_wrote _ _ _ _ _ _ _ _ P0 Hr W1 W2 P1).
Qed.

Lemma transcribe_file_silence_witness :
  exists out,
    transcribe_file quiet_print plain_write (py "demo.wav") 70000
      (fun w => if fst w =? 0 then UnknownValueError
                else if fst w =? 29000 then RequestError (py "quota")
                else Returned (py "  ")) =
    Wrote (mkFiles [] []) out.
Proof.
  apply (transcribe_file_silence quiet_print plain_write (py "demo.wav") 70000
           (fun w => if fst w =? 0 then UnknownValueError
                     else if fst w =? 29000 then RequestError (py "quota")
                     else Returned (py "  "))
           [(0, 30000); (29000, 59000); (58000, 70000)]);
    try reflexivity.
  repeat constructor.
Defined.

Lemma chunk_audio_one len c o :
  0 < len -> len <= c -> chunk_audio len c o = Some [(0, len)].
Proof.
  intros Hlen Hc. unfold chunk_audio. rewrite chunk_loop_S.
  destruct (Z.ltb_spec 0 len); [|lia].
  assert (Hm : Z.min (0 + c) len = len) by lia. rewrite Hm.
  now rewrite Z.eqb_refl.
Qed.

(** A recording no longer than the default chunk (30 s, as the 8 s of
    [quick_demo] are) is sent as a whole, once.  When the call returns a
    text that is not all whitespace, and the two prints and the two writes
    of [transcribe_file] return, the transcript file is that text as it
    came, and the subtitle file is the single entry numbered 1, from 0 to
    the end of the recording, with the text stripped; [print] is called
    twice. *)
Theorem transcribe_file_short :
  forall rich_print write_text wav_path len recognize text,
  0 < len <= default_chunk_ms ->
  recognize (0, len) = Returned text ->
  truthy (strip text) = true ->
  rich_print (transcribing_msg wav_path) = None ->
  write_text (py "transcript.txt") text = None ->
  write_text (py "subtitles.srt")
             (py "1" ++ LF ++ py "00:00:00,000 --> " ++ ms_to_srt_time len ++ LF
                ++ strip text ++ LF) = None ->
  rich_print saved_msg = None ->
  transcribe_file rich_print write_text wav_path len recognize =
  Wrote (mkFiles text
           (py "1" ++ LF ++ py "00:00:00,000 --> " ++ ms_to_srt_time len ++ LF
              ++ strip text ++ LF))
        [transcribing_msg wav_path; saved_msg].
Proof.
  intros rich_print write_text wav_path len recognize text Hlen Hr Hk
         P0 W1 W2 P1.
  assert (Hg : transcribe_wav_google rich_print len recognize
                 default_chunk_ms default_overlap_ms =
               Returns text [(0, len, text)] []).
  { unfold transcribe_wav_google. rewrite chunk_audio_one by lia.
    cbn [transcribe_loop]. rewrite Hr. cbn [recognized_text]. rewrite Hk.
    reflexivity. }
  assert (Hsrt : write_srt [(0, len, text)] =
                 py "1" ++ LF ++ py "00:00:00,000 --> " ++ ms_to_srt_time len
                   ++ LF ++ strip text ++ LF) by reflexivity.
  rewrite <- Hsrt in W2 |- *.
  apply (transcribe_file_wrote _ _ _ _ _ _ _ _ P0 Hg W1 W2 P1).
Qed.

Lemma transcribe_file_short_witness :
  transcribe_file quiet_print plain_write (py "demo.wav") 8000
                  (fun _ => Returned (py " hi there ")) =
  Wrote (mkFiles (py " hi there ")
           (py "1" ++ LF ++ py "00:00:00,000 --> 00:00:08,000" ++ LF
              ++ py "hi there" ++ LF))
        [transcribing_msg (py "demo.wav"); saved_msg].
Proof.
  apply (transcribe_file_short quiet_print plain_write (py "demo.wav") 8000
           (fun _ => Returned (py " hi there ")) (py " hi there "));
    try reflexivity.
  unfold default_chunk_ms; lia.
Defined.

End Pipeline.
